(** * A Fibonacci heap over an explicit object store

    Shallow embedding of [src/fibonacci_heap.py].  Python objects are
    cells of a store addressed by allocation index; every attribute
    assignment of the source is one store update, so aliasing between
    [self], [node], [self.left] ... behaves as it does in Python. *)

From Stdlib Require Import ZArith Lia.
From stdpp Require Import base numbers list option.

(** ** Keys

    The source compares keys with [<] and [>] only, and [delete] uses
    [float('-inf')]: keys are the integers extended with that value. *)

Inductive Key := NegInf | Int (z : Z).

Definition key_lt (a b : Key) : bool :=
  match a, b with
  | NegInf, NegInf => false
  | NegInf, Int _ => true
  | Int _, NegInf => false
  | Int x, Int y => (x <? y)%Z
  end.

Definition key_gt (a b : Key) : bool := key_lt b a.

(** A reference to a node object: its index in the store. *)
Abbreviation ref := nat.

(** ** class Node *)

Module Node.
Record t := mk {
  key : Key;
  parent : option ref;
  child : option ref;
  left : ref;
  right : ref;
  degree : Z;
  mark : bool
}.

(** [__init__], for the object allocated at address [self]. *)
Definition init (self : ref) (k : Key) : t :=
  mk k None None self self 0%Z false.

Definition set_key (v : Key) (n : t) : t :=
  mk v (parent n) (child n) (left n) (right n) (degree n) (mark n).
Definition set_parent (v : option ref) (n : t) : t :=
  mk (key n) v (child n) (left n) (right n) (degree n) (mark n).
Definition set_child (v : option ref) (n : t) : t :=
  mk (key n) (parent n) v (left n) (right n) (degree n) (mark n).
Definition set_left (v : ref) (n : t) : t :=
  mk (key n) (parent n) (child n) v (right n) (degree n) (mark n).
Definition set_right (v : ref) (n : t) : t :=
  mk (key n) (parent n) (child n) (left n) v (degree n) (mark n).
Definition set_degree (v : Z) (n : t) : t :=
  mk (key n) (parent n) (child n) (left n) (right n) v (mark n).
Definition set_mark (v : bool) (n : t) : t :=
  mk (key n) (parent n) (child n) (left n) (right n) (degree n) v.
End Node.

(** ** class FibonacciHeap: the two attributes, and the store of nodes *)

Module Heap.
Record t := mk {
  store : list Node.t;
  min : option ref;
  num_nodes : Z
}.

(** [__init__] *)
Definition init : t := mk [] None 0%Z.
End Heap.

(** ** Outcomes of a call *)

Inductive exn :=
| AttributeError   (* attribute access on None *)
| IndexError       (* list index out of range *)
| ValueError       (* math domain error *)
| Hangs            (* a loop that does not end *)
| Dangling.        (* a reference that is not a node of the store *)

(** What a public method hands back: [None], a key, an [int] (from
    [__len__]) or a reference to a node. *)
Inductive value := PyNone | PyKey (k : Key) | PyInt (z : Z) | PyNode (r : ref).

Inductive outcome (A : Type) :=
| Returns (a : A) (h : Heap.t)
| Raises (e : exn) (h : Heap.t).
Arguments Returns {A} a h.
Arguments Raises {A} e h.

Definition M (A : Type) : Type := Heap.t → outcome A.

#[global] Instance M_ret : MRet M := λ A a h, Returns a h.
#[global] Instance M_bind : MBind M := λ A B f m h,
  match m h with
  | Returns a h' => f a h'
  | Raises e h' => Raises e h'
  end.

Definition raise {A} (e : exn) : M A := λ h, Raises e h.

Definition final {A} (o : outcome A) : Heap.t :=
  match o with Returns _ h => h | Raises _ h => h end.

Definition get (r : ref) : M Node.t := λ h,
  match Heap.store h !! r with
  | Some n => Returns n h
  | None => Raises Dangling h
  end.

Definition rd {A} (f : Node.t → A) (r : ref) : M A := n ← get r; mret (f n).

Definition modify (r : ref) (f : Node.t → Node.t) : M unit := λ h,
  match Heap.store h !! r with
  | Some n => Returns tt (Heap.mk (<[r := f n]> (Heap.store h)) (Heap.min h) (Heap.num_nodes h))
  | None => Raises Dangling h
  end.

(** [self.Node(key)] *)
Definition alloc (k : Key) : M ref := λ h,
  let r := length (Heap.store h) in
  Returns r (Heap.mk (Heap.store h ++ [Node.init r k]) (Heap.min h) (Heap.num_nodes h)).

Definition get_min : M (option ref) := λ h, Returns (Heap.min h) h.
Definition set_min (v : option ref) : M unit := λ h,
  Returns tt (Heap.mk (Heap.store h) v (Heap.num_nodes h)).
Definition get_num_nodes : M Z := λ h, Returns (Heap.num_nodes h) h.
Definition set_num_nodes (v : Z) : M unit := λ h,
  Returns tt (Heap.mk (Heap.store h) (Heap.min h) v).
Definition count_objects : M nat := λ h, Returns (length (Heap.store h)) h.

(** [self.min.<attr>] raises when [self.min] is None. *)
Definition the_min : M ref :=
  m ← get_min; match m with Some r => mret r | None => raise AttributeError end.

(** ** Node methods *)

Fixpoint siblings_while (fuel : nat) (self current : ref) (sibs : list ref)
  : M (list ref) :=
  if decide (current = self) then mret sibs
  else match fuel with
       | O => raise Hangs
       | S fuel' =>
           l ← rd Node.left current;
           siblings_while fuel' self l (sibs ++ [l])
       end.

Definition siblings (self : ref) : M (list ref) :=
  l ← rd Node.left self;
  if decide (l = self) then mret [self]
  else n ← count_objects; siblings_while n self l [l].

Definition add (self node : ref) : M unit :=
  l ← rd Node.left self; modify node (Node.set_left l);;
  modify node (Node.set_right self);;
  l ← rd Node.left self; modify l (Node.set_right node);;
  modify self (Node.set_left node).

Definition remove (self : ref) : M unit :=
  r ← rd Node.right self; l ← rd Node.left self; modify l (Node.set_right r);;
  l ← rd Node.left self; r ← rd Node.right self; modify r (Node.set_left l).

(** ** Python lists of table slots: indexing with negative wrap-around *)

Definition py_pos {A} (l : list A) (i : Z) : option nat :=
  let n := Z.of_nat (length l) in
  if (0 <=? i)%Z && (i <? n)%Z then Some (Z.to_nat i)
  else if (- n <=? i)%Z && (i <? 0)%Z then Some (Z.to_nat (n + i))
  else None.

Definition py_index {A} (l : list A) (i : Z) : M A :=
  match py_pos l i ≫= (λ p, l !! p) with
  | Some a => mret a
  | None => raise IndexError
  end.

Definition py_setindex {A} (l : list A) (i : Z) (a : A) : M (list A) :=
  match py_pos l i with
  | Some p => mret (<[p := a]> l)
  | None => raise IndexError
  end.

(** ** [int(log(n) * 2)]

    [math.log] is the natural logarithm.  For [n >= 1] the integer part
    of [2 ln n] is the number of [k >= 1] with [e^k <= n^2] (at most
    [2 log2 n] of them); [e] is taken as [num / 10^12]. *)

Definition e_num : Z := 2718281828459.
Definition e_den : Z := 1000000000000.

Definition e_pow_le (num : Z) (m : Z) (k : nat) : bool :=
  (num ^ Z.of_nat k <=? m * e_den ^ Z.of_nat k)%Z.

Definition floor_2ln (num : Z) (n : Z) : nat :=
  length (filter (λ k, e_pow_le num (n * n) k = true)
                 (seq 1 (2 * Z.to_nat (Z.log2 n) + 2))).

Definition int_2log (n : Z) : M nat :=
  if (n <=? 0)%Z then raise ValueError else mret (floor_2ln e_num n).

(** ** FibonacciHeap methods *)

(** [__len__] *)
Definition len : M Z := get_num_nodes.

Definition insert (k : Key) : M value :=
  node ← alloc k;
  m ← get_min;
  match m with
  | Some _ =>
      m ← the_min; add m node;;
      m ← the_min; mk ← rd Node.key m;
      (if key_lt k mk then set_min (Some node) else mret tt)
  | None => set_min (Some node)
  end;;
  n ← get_num_nodes; set_num_nodes (n + 1);;
  mret PyNone.

Definition minimum : M value :=
  m ← the_min; k ← rd Node.key m; mret (PyKey k).

(** [__link] *)
Definition link (node1 node2 : ref) : M unit :=
  remove node1;;
  modify node1 (Node.set_parent (Some node2));;
  c ← rd Node.child node2;
  match c with
  | None =>
      modify node1 (Node.set_left node1);;
      modify node1 (Node.set_right node1);;
      modify node2 (Node.set_child (Some node1))
  | Some c => add c node1
  end;;
  d ← rd Node.degree node2; modify node2 (Node.set_degree (d + 1));;
  modify node1 (Node.set_mark false).

(** The [while] loop of [__consolidate]; it ends because [node_deg]
    grows until the index is out of range. *)
Fixpoint consolidate_while (fuel : nat) (deg_list : list (option ref))
    (xnode : ref) (node_deg : Z) : M (list (option ref) * ref * Z) :=
  slot ← py_index deg_list node_deg;
  match slot with
  | None => mret (deg_list, xnode, node_deg)
  | Some _ =>
      match fuel with
      | O => raise Hangs
      | S fuel' =>
          ynode ← py_index deg_list node_deg;
          match ynode with
          | None => raise AttributeError
          | Some ynode =>
              kx ← rd Node.key xnode; ky ← rd Node.key ynode;
              let '(xnode, ynode) :=
                if key_gt kx ky then (ynode, xnode) else (xnode, ynode) in
              link ynode xnode;;
              deg_list ← py_setindex deg_list node_deg None;
              consolidate_while fuel' deg_list xnode (node_deg + 1)
          end
      end
  end.

(** The first [for] loop of [__consolidate]. *)
Fixpoint consolidate_roots (nodes : list ref) (deg_list : list (option ref))
  : M (list (option ref)) :=
  match nodes with
  | [] => mret deg_list
  | node :: nodes' =>
      node_deg ← rd Node.degree node;
      '(deg_list, xnode, node_deg) ←
        consolidate_while (2 * length deg_list + 1) deg_list node node_deg;
      deg_list ← py_setindex deg_list node_deg (Some xnode);
      consolidate_roots nodes' deg_list
  end.

(** The second [for] loop of [__consolidate]. *)
Fixpoint consolidate_rebuild (deg_list : list (option ref)) : M unit :=
  match deg_list with
  | [] => mret tt
  | deg_node :: deg_list' =>
      match deg_node with
      | Some deg_node =>
          m ← get_min;
          match m with
          | None =>
              set_min (Some deg_node);;
              modify deg_node (Node.set_right deg_node);;
              modify deg_node (Node.set_left deg_node)
          | Some _ =>
              m ← the_min; add m deg_node;;
              kd ← rd Node.key deg_node;
              m ← the_min; mk ← rd Node.key m;
              if key_lt kd mk then set_min (Some deg_node) else mret tt
          end
      | None => mret tt
      end;;
      consolidate_rebuild deg_list'
  end.

(** [__consolidate] *)
Definition consolidate : M unit :=
  n ← get_num_nodes;
  size ← int_2log n;
  let deg_list := replicate size (@None ref) in
  m ← the_min;
  nodes ← siblings m;
  deg_list ← consolidate_roots nodes deg_list;
  consolidate_rebuild deg_list.

(** The [for] loop of [extract_minimum]. *)
Fixpoint promote_children (rnodes : list ref) : M unit :=
  match rnodes with
  | [] => mret tt
  | r_node :: rnodes' =>
      modify r_node (Node.set_parent None);;
      m ← the_min; add m r_node;;
      promote_children rnodes'
  end.

Definition extract_minimum : M value :=
  min_node ← get_min;
  match min_node with
  | Some min_node =>
      c ← rd Node.child min_node;
      match c with
      | Some c => rnodes ← siblings c; promote_children rnodes
      | None => mret tt
      end;;
      remove min_node;;
      r ← rd Node.right min_node;
      (if decide (min_node = r) then set_min None
       else
         r ← rd Node.right min_node; set_min (Some r);;
         consolidate);;
      n ← get_num_nodes; set_num_nodes (n - 1);;
      k ← rd Node.key min_node;
      mret (PyKey k)
  | None => mret PyNone
  end.

(** [__cut] *)
Definition cut (node parent : ref) : M unit :=
  remove node;;
  r ← rd Node.right node;
  (if decide (r = node) then modify parent (Node.set_child None) else mret tt);;
  d ← rd Node.degree parent; modify parent (Node.set_degree (d - 1));;
  m ← the_min; add m node;;
  modify node (Node.set_parent None);;
  modify node (Node.set_mark false).

(** [__cascading_cut]; each recursive call follows the cut of a marked
    node, which unmarks it. *)
Fixpoint cascading_cut_rec (fuel : nat) (node : ref) : M unit :=
  parent ← rd Node.parent node;
  match parent with
  | Some parent =>
      mk ← rd Node.mark node;
      if negb mk then modify node (Node.set_mark true)
      else
        match fuel with
        | O => raise Hangs
        | S fuel' => cut node parent;; cascading_cut_rec fuel' parent
        end
  | None => mret tt
  end.

Definition cascading_cut (node : ref) : M unit :=
  n ← count_objects; cascading_cut_rec n node.

Definition decrease_key (node : ref) (new_key : Key) : M value :=
  k ← rd Node.key node;
  if key_gt new_key k then mret PyNone
  else
    modify node (Node.set_key new_key);;
    parent ← rd Node.parent node;
    match parent with
    | Some parent =>
        kn ← rd Node.key node; kp ← rd Node.key parent;
        if key_lt kn kp then cut node parent;; cascading_cut parent
        else mret tt
    | None => mret tt
    end;;
    kn ← rd Node.key node; m ← the_min; km ← rd Node.key m;
    (if key_lt kn km then set_min (Some node) else mret tt);;
    mret PyNone.

Definition delete (node : ref) : M value :=
  decrease_key node NegInf;;
  extract_minimum;;
  mret PyNone.

(** ** Sequences of public calls *)

Inductive call :=
| Insert (k : Key)
| Minimum
| ExtractMinimum
| DecreaseKey (node : ref) (new_key : Key)
| Delete (node : ref)
| Len.

Definition perform (c : call) : M value :=
  match c with
  | Insert k => insert k
  | Minimum => minimum
  | ExtractMinimum => extract_minimum
  | DecreaseKey node new_key => decrease_key node new_key
  | Delete node => delete node
  | Len => n ← len; mret (PyInt n)
  end.

(** Runs the calls in order and collects what each returned; a call that
    raises ends the run. *)
Fixpoint run (cs : list call) : M (list value) :=
  match cs with
  | [] => mret []
  | c :: cs' => v ← perform c; vs ← run cs'; mret (v :: vs)
  end.

(** * Notions used to state and prove the properties *)

(** The store with the node at [r] replaced. *)
Definition upd (r : ref) (n : Node.t) (h : Heap.t) : Heap.t :=
  Heap.mk (<[r := n]> (Heap.store h)) (Heap.min h) (Heap.num_nodes h).

Definition returned {A} (o : outcome A) : option A :=
  match o with Returns a _ => Some a | Raises _ _ => None end.

Definition raised {A} (o : outcome A) : option exn :=
  match o with Returns _ _ => None | Raises e _ => Some e end.

Definition inserts (ks : list Z) : list call := map (λ z, Insert (Int z)) ks.

Definition node_at (h : Heap.t) (r : ref) : option Node.t := Heap.store h !! r.

(** [respects R m]: the heap in which [m] ends, whether it returns or
    raises, is related by [R] to the heap in which it started. *)
Definition respects {A} (R : relation Heap.t) (m : M A) : Prop :=
  ∀ h, R h (final (m h)).

(** [keeps I m]: [m] ends, returning or raising, in a heap that
    satisfies [I] when it starts in one. *)
Definition keeps {A} (I : Heap.t → Prop) (m : M A) : Prop :=
  ∀ h, I h → I (final (m h)).

(** The column of one attribute over all nodes of the store. *)
Definition view {B} (f : Node.t → B) (h : Heap.t) : list B := f <$> Heap.store h.

Definition same {B} (f : Node.t → B) : relation Heap.t :=
  λ h h', view f h' = view f h.

Definition same_attrs : relation Heap.t :=
  λ h h', Heap.min h' = Heap.min h ∧ Heap.num_nodes h' = Heap.num_nodes h.

(** Attributes other than the ring links. *)
Inductive off_ring : ∀ {B}, (Node.t → B) → Prop :=
| off_ring_key : off_ring Node.key
| off_ring_parent : off_ring Node.parent
| off_ring_child : off_ring Node.child
| off_ring_degree : off_ring Node.degree
| off_ring_mark : off_ring Node.mark.

(** [eases h h']: the same nodes with the same keys, and every parent
    link either kept or cleared. *)
Definition eases : relation Heap.t := λ h h',
  length (Heap.store h') = length (Heap.store h) ∧
  ∀ r n', Heap.store h' !! r = Some n' →
    ∃ n, Heap.store h !! r = Some n ∧ Node.key n' = Node.key n ∧
         (Node.parent n' = Node.parent n ∨ Node.parent n' = None).

(** Heap order along the parent links of the nodes selected by [S]:
    the parent is a node of the store and its key is not larger. *)
Definition ordered_on (S : ref → Prop) (h : Heap.t) : Prop :=
  ∀ r n p, S r → Heap.store h !! r = Some n → Node.parent n = Some p →
    ∃ np, Heap.store h !! p = Some np ∧ key_lt (Node.key n) (Node.key np) = false.

(** Heap order along every parent link, over all nodes ever allocated. *)
Definition heap_ordered (h : Heap.t) : Prop := ordered_on (λ _, True) h.

(** [never_hangs m]: [m] does not run out of the fuel given to a loop. *)
Definition never_hangs {A} (m : M A) : Prop :=
  ∀ h, raised (m h) ≠ Some Hangs.

(** The number of marked nodes. *)
Definition marked (h : Heap.t) : nat :=
  length (filter (λ b, b = true) (view Node.mark h)).

(** The node reached from [c] by following [left] [k] times. *)
Fixpoint nth_left (h : Heap.t) (k : nat) (c : ref) : option ref :=
  match k with
  | O => Some c
  | S k' => n ← Heap.store h !! c; nth_left h k' (Node.left n)
  end.

(** [tally h h']: as many nodes in the store, and the same [num_nodes]. *)
Definition tally : relation Heap.t := λ h h',
  length (Heap.store h') = length (Heap.store h)
  ∧ Heap.num_nodes h' = Heap.num_nodes h.

(** What one public call, handing back [v], does to the node count. *)
Definition size_change (c : call) (v : value) : Z :=
  match c, v with
  | Insert _, _ => 1
  | ExtractMinimum, PyKey _ => -1
  | Delete _, _ => -1
  | _, _ => 0
  end.

Fixpoint size_after (cs : list call) (vs : list value) : Z :=
  match cs, vs with
  | c :: cs', v :: vs' => size_change c v + size_after cs' vs'
  | _, _ => 0
  end.

Definition is_insert (c : call) : bool :=
  match c with Insert _ => true | _ => false end.

(** The smaller of the running minimum and the next key, as [insert]
    compares them. *)
Definition least (k0 : Key) (ks : list Key) : Key :=
  foldl (λ cur k, if key_lt k cur then k else cur) k0 ks.

Fixpoint count_inserts (cs : list call) : nat :=
  match cs with
  | [] => 0
  | c :: cs' => (if is_insert c then 1 else 0) + count_inserts cs'
  end.

(** [min_is h m k]: [min] is the node [m], it holds key [k], and its
    left neighbour is a node of the store. *)
Definition min_is (h : Heap.t) (m : ref) (k : Key) : Prop :=
  ∃ nm, Heap.min h = Some m ∧ Heap.store h !! m = Some nm
        ∧ Node.key nm = k ∧ Node.left nm < length (Heap.store h).

(** [left_path h a l b]: following [left] from [a] leads through the
    nodes of [l], in order, and then to [b]. *)
Fixpoint left_path (h : Heap.t) (a : ref) (l : list ref) (b : ref) : Prop :=
  match l with
  | [] => Node.left <$> Heap.store h !! a = Some b
  | c :: l' => Node.left <$> Heap.store h !! a = Some c ∧ left_path h c l' b
  end.

(** [root_ring h m l]: [min] is [m], the [left] links lead from [m]
    through [l] back to [m], and these are all the nodes of the store,
    each once. *)
Definition root_ring (h : Heap.t) (m : ref) (l : list ref) : Prop :=
  Heap.min h = Some m ∧ left_path h m l m
  ∧ m :: l ≡ₚ seq 0 (length (Heap.store h)).

(** [unmarks h h']: no more nodes are marked in [h'] than in [h]. *)
Definition unmarks : relation Heap.t := λ h h', marked h' ≤ marked h.

(** [adds_marks d m]: [m] ends, returning or raising, with at most [d]
    more marked nodes than it started with. *)
Definition adds_marks (d : nat) {A} (m : M A) : Prop :=
  ∀ h, marked (final (m h)) ≤ marked h + d.

(** * Reasoning about calls *)


Lemma bind_unfold {A B} (m : M A) (f : A → M B) (h : Heap.t) :
  (m ≫= f) h
  = match m h with Returns a h' => f a h' | Raises e h' => Raises e h' end.
Proof. reflexivity. Qed.

Lemma bind_Returns {A B} (m : M A) (f : A → M B) h b h2 :
  (m ≫= f) h = Returns b h2 →
  ∃ a h1, m h = Returns a h1 ∧ f a h1 = Returns b h2.
Proof.
  rewrite bind_unfold. destruct (m h) as [a h1|e h1]; [eauto | discriminate].
Qed.

Lemma get_ok r h n : Heap.store h !! r = Some n → get r h = Returns n h.
Proof. unfold get. intros ->. reflexivity. Qed.

Lemma rd_ok {A} (f : Node.t → A) r h n :
  Heap.store h !! r = Some n → rd f r h = Returns (f n) h.
Proof. intros H. unfold rd. rewrite bind_unfold, (get_ok _ _ _ H). reflexivity. Qed.

Lemma modify_ok r g h n :
  Heap.store h !! r = Some n → modify r g h = Returns tt (upd r (g n) h).
Proof. unfold modify. intros ->. reflexivity. Qed.

Lemma rd_Returns {A} (f : Node.t → A) r h a h' :
  rd f r h = Returns a h' →
  h' = h ∧ ∃ n, Heap.store h !! r = Some n ∧ a = f n.
Proof.
  unfold rd, get. rewrite bind_unfold.
  destruct (Heap.store h !! r) as [n|] eqn:E; [|discriminate].
  intros [= <- <-]. eauto.
Qed.

Lemma modify_Returns r g h u h' :
  modify r g h = Returns u h' →
  ∃ n, Heap.store h !! r = Some n ∧ h' = upd r (g n) h.
Proof.
  unfold modify. destruct (Heap.store h !! r) as [n|] eqn:E; [|discriminate].
  intros [= <- <-]. eauto.
Qed.

Lemma the_min_Returns m h h' :
  the_min h = Returns m h' → h' = h ∧ Heap.min h = Some m.
Proof.
  unfold the_min, get_min. rewrite bind_unfold.
  destruct (Heap.min h); [intros [= <- <-]; auto | discriminate].
Qed.

Lemma the_min_ok m h : Heap.min h = Some m → the_min h = Returns m h.
Proof. unfold the_min, get_min. rewrite bind_unfold. intros ->. reflexivity. Qed.

Lemma lookup_upd r n h r' :
  r < length (Heap.store h) →
  Heap.store (upd r n h) !! r' = if decide (r = r') then Some n else Heap.store h !! r'.
Proof.
  intros Hlt. unfold upd. simpl. destruct (decide (r = r')) as [<-|Hne].
  - by apply list_lookup_insert_eq.
  - by apply list_lookup_insert_ne.
Qed.

Lemma length_upd r n h : length (Heap.store (upd r n h)) = length (Heap.store h).
Proof. apply length_insert. Qed.

(** ** The table size

    The first values, and a check that the twelfth decimal of [e] does
    not matter: rounding it up instead of down gives the same size for
    every node count up to 100, so [2 ln n] is nowhere near an integer
    there and the floating-point product truncates to the same value. *)

Lemma floor_2ln_first :
  floor_2ln e_num <$> [1; 2; 3; 4; 5; 6; 7; 8; 9; 10]%Z
  = [0; 1; 2; 2; 3; 3; 3; 4; 4; 4].
Proof. vm_compute. reflexivity. Qed.

Lemma floor_2ln_stable :
  forallb (λ n : nat,
             floor_2ln e_num (Z.of_nat n) =? floor_2ln (e_num + 1) (Z.of_nat n))
          (seq 1 100) = true.
Proof. vm_compute. reflexivity. Qed.

(** ** What a call leaves alone *)

#[global] Instance same_preorder {B} (f : Node.t → B) : PreOrder (same f).
Proof.
  split; [intros h; reflexivity|].
  intros h1 h2 h3 H12 H23. unfold same in *. congruence.
Qed.

#[global] Instance same_attrs_preorder : PreOrder same_attrs.
Proof.
  split; [intros h; split; reflexivity|].
  intros h1 h2 h3 [? ?] [? ?]. split; congruence.
Qed.

Section Respects.
Context (R : relation Heap.t) `{!PreOrder R}.

Lemma respects_ret {A} (a : A) : respects R (mret a).
Proof. intros h. simpl. reflexivity. Qed.

Lemma respects_raise {A} (e : exn) : respects R (@raise A e).
Proof. intros h. simpl. reflexivity. Qed.

Lemma respects_bind {A B} (m : M A) (f : A → M B) :
  respects R m → (∀ a, respects R (f a)) → respects R (m ≫= f).
Proof.
  intros Hm Hf h. rewrite bind_unfold. specialize (Hm h).
  destruct (m h) as [a h1|e h1]; simpl in *; [|done].
  etrans; [exact Hm | apply Hf].
Qed.

Lemma respects_get r : respects R (get r).
Proof. intros h. unfold get. destruct (_ !! _); simpl; reflexivity. Qed.

Lemma respects_rd {A} (f : Node.t → A) r : respects R (rd f r).
Proof. apply respects_bind; [apply respects_get | intros; apply respects_ret]. Qed.

Lemma respects_get_min : respects R get_min.
Proof. intros h. simpl. reflexivity. Qed.

Lemma respects_the_min : respects R the_min.
Proof.
  apply respects_bind; [apply respects_get_min|].
  intros [m|]; [apply respects_ret | apply respects_raise].
Qed.

Lemma respects_get_num_nodes : respects R get_num_nodes.
Proof. intros h. simpl. reflexivity. Qed.

Lemma respects_count_objects : respects R count_objects.
Proof. intros h. simpl. reflexivity. Qed.

Lemma respects_modify r g :
  (∀ h n, Heap.store h !! r = Some n → R h (upd r (g n) h)) →
  respects R (modify r g).
Proof.
  intros Hg h. unfold modify.
  destruct (_ !! _) as [n|] eqn:E; simpl; [by apply Hg | reflexivity].
Qed.

Lemma respects_py_index {A} (l : list A) i : respects R (py_index l i).
Proof.
  unfold py_index. destruct (_ ≫= _); [apply respects_ret | apply respects_raise].
Qed.

Lemma respects_py_setindex {A} (l : list A) i a : respects R (py_setindex l i a).
Proof.
  unfold py_setindex. destruct (py_pos _ _); [apply respects_ret | apply respects_raise].
Qed.

Lemma respects_int_2log n : respects R (int_2log n).
Proof.
  unfold int_2log. destruct (_ <=? _)%Z; [apply respects_raise | apply respects_ret].
Qed.

Lemma respects_siblings_while fuel self current sibs :
  respects R (siblings_while fuel self current sibs).
Proof.
  revert current sibs. induction fuel as [|fuel IH]; intros current sibs; simpl.
  - destruct (decide _); [apply respects_ret | apply respects_raise].
  - destruct (decide _); [apply respects_ret|].
    apply respects_bind; [apply respects_rd | intros; apply IH].
Qed.

Lemma respects_siblings self : respects R (siblings self).
Proof.
  apply respects_bind; [apply respects_rd|]. intros l.
  destruct (decide _); [apply respects_ret|].
  apply respects_bind; [apply respects_count_objects|].
  intros; apply respects_siblings_while.
Qed.
End Respects.

(** A setter that does not touch attribute [f] leaves its column alone. *)
Lemma same_upd {B} (f : Node.t → B) (g : Node.t → Node.t) r h n :
  (∀ n, f (g n) = f n) →
  Heap.store h !! r = Some n → same f h (upd r (g n) h).
Proof.
  intros Hfg Hr. unfold same, view, upd. simpl.
  rewrite list_fmap_insert, Hfg. apply list_insert_id.
  rewrite list_lookup_fmap, Hr. reflexivity.
Qed.

Lemma same_attrs_upd r n h : same_attrs h (upd r n h).
Proof. split; reflexivity. Qed.

Lemma same_length {B} (f : Node.t → B) h h' :
  same f h h' → length (Heap.store h') = length (Heap.store h).
Proof.
  unfold same, view. intros H.
  rewrite <- (length_fmap f (Heap.store h')), H. apply length_fmap.
Qed.

Lemma same_lookup {B} (f : Node.t → B) h h' r :
  same f h h' → f <$> Heap.store h' !! r = f <$> Heap.store h !! r.
Proof.
  unfold same, view. intros H. rewrite <- !list_lookup_fmap. by rewrite H.
Qed.


Lemma off_ring_set_left {B} (f : Node.t → B) v n :
  off_ring f → f (Node.set_left v n) = f n.
Proof. destruct 1; reflexivity. Qed.

Lemma off_ring_set_right {B} (f : Node.t → B) v n :
  off_ring f → f (Node.set_right v n) = f n.
Proof. destruct 1; reflexivity. Qed.

(** Walks down a straight-line body; what is left are the obligations
    of its [modify] steps and of the calls it makes. *)
Ltac respects_walk :=
  repeat match goal with
  | |- respects _ (mret _) => apply respects_ret; apply _
  | |- respects _ (raise _) => apply respects_raise; apply _
  | |- respects _ (rd _ _) => apply respects_rd; apply _
  | |- respects _ (get _) => apply respects_get; apply _
  | |- respects _ get_min => apply respects_get_min; apply _
  | |- respects _ the_min => apply respects_the_min; apply _
  | |- respects _ get_num_nodes => apply respects_get_num_nodes; apply _
  | |- respects _ count_objects => apply respects_count_objects; apply _
  | |- respects _ (siblings _) => apply respects_siblings; apply _
  | |- respects _ (py_index _ _) => apply respects_py_index; apply _
  | |- respects _ (py_setindex _ _ _) => apply respects_py_setindex; apply _
  | |- respects _ (int_2log _) => apply respects_int_2log; apply _
  | |- respects _ (modify _ _) => apply respects_modify; [apply _ | intros]
  | |- respects _ (_ ≫= _) => apply respects_bind; [apply _ | | intros]
  | |- respects _ (match ?x with _ => _ end) => destruct x
  | |- respects _ (let (_, _) := ?x in _) => destruct x
  end.

(** [add] and [remove] rewrite [left] and [right] only. *)
Lemma add_same {B} (f : Node.t → B) self node :
  off_ring f → respects (same f) (add self node).
Proof.
  intros Hf. unfold add. respects_walk;
    (apply same_upd; [|done]; intros;
     first [by apply off_ring_set_left | by apply off_ring_set_right]).
Qed.

Lemma remove_same {B} (f : Node.t → B) self :
  off_ring f → respects (same f) (remove self).
Proof.
  intros Hf. unfold remove. respects_walk;
    (apply same_upd; [|done]; intros;
     first [by apply off_ring_set_left | by apply off_ring_set_right]).
Qed.

Lemma add_same_attrs self node : respects same_attrs (add self node).
Proof. unfold add. respects_walk; apply same_attrs_upd. Qed.

Lemma remove_same_attrs self : respects same_attrs (remove self).
Proof. unfold remove. respects_walk; apply same_attrs_upd. Qed.

(** ** Heap order *)

Lemma final_bind {A B} (m : M A) (f : A → M B) h :
  final ((m ≫= f) h)
  = match m h with Returns a h' => final (f a h') | Raises _ h' => h' end.
Proof. rewrite bind_unfold. by destruct (m h). Qed.

Lemma keeps_bind {A B} (I : Heap.t → Prop) (m : M A) (f : A → M B) :
  keeps I m → (∀ a, keeps I (f a)) → keeps I (m ≫= f).
Proof.
  intros Hm Hf h Hh. rewrite final_bind. specialize (Hm h Hh).
  destruct (m h) as [a h1|e h1]; simpl in *; [by apply Hf | done].
Qed.

Lemma respects_keeps {A} (R : relation Heap.t) (I : Heap.t → Prop) (m : M A) :
  (∀ h h', I h → R h h' → I h') → respects R m → keeps I m.
Proof. intros HR Hm h Hh. eapply HR; [exact Hh | apply Hm]. Qed.

Lemma key_lt_irrefl k : key_lt k k = false.
Proof. destruct k; simpl; [done | apply Z.ltb_irrefl]. Qed.

(** [a >= b] and [b >= c] give [a >= c]. *)
Lemma key_ge_trans a b c :
  key_lt a b = false → key_lt b c = false → key_lt a c = false.
Proof.
  destruct a, b, c; simpl; try done.
  rewrite !Z.ltb_ge. lia.
Qed.

#[global] Instance eases_preorder : PreOrder eases.
Proof.
  split.
  - intros h. split; [done|]. intros r n Hr. exists n. auto.
  - intros h1 h2 h3 [L12 H12] [L23 H23]. split; [congruence|].
    intros r n3 Hr3.
    destruct (H23 r n3 Hr3) as (n2 & Hr2 & Hk2 & Hp2).
    destruct (H12 r n2 Hr2) as (n1 & Hr1 & Hk1 & Hp1).
    exists n1. split; [done|]. split; [congruence|].
    destruct Hp2 as [->| ->]; auto.
Qed.

Lemma eases_store h h' : Heap.store h' = Heap.store h → eases h h'.
Proof.
  intros E. split; [by rewrite E|]. intros r n. rewrite E. eauto.
Qed.

Lemma eases_upd (g : Node.t → Node.t) r h n :
  (∀ n, Node.key (g n) = Node.key n) →
  (∀ n, Node.parent (g n) = Node.parent n ∨ Node.parent (g n) = None) →
  Heap.store h !! r = Some n → eases h (upd r (g n) h).
Proof.
  intros Hk Hp Hr. split; [apply length_upd|].
  intros r' n' Hr'.
  rewrite lookup_upd in Hr' by (eapply lookup_lt_Some; eauto).
  destruct (decide (r = r')) as [<-|Hne].
  - injection Hr' as <-. exists n. auto.
  - exists n'. auto.
Qed.

(** Order on the selected nodes survives keeping or clearing parents. *)
Lemma ordered_on_eases S h h' : ordered_on S h → eases h h' → ordered_on S h'.
Proof.
  intros Ho [Hl He] r n' p HS Hr' Hp'.
  destruct (He r n' Hr') as (n & Hr & Hk & Hp).
  destruct Hp as [Hp|Hp]; [|congruence].
  destruct (Ho r n p HS Hr) as (np & Hnp & Hlt); [congruence|].
  assert (Hlen : p < length (Heap.store h')).
  { rewrite Hl. eapply lookup_lt_Some; eauto. }
  destruct (lookup_lt_is_Some_2 _ _ Hlen) as [np' Hnp'].
  destruct (He p np' Hnp') as (np0 & Hnp0 & Hk0 & _).
  exists np'. split; [done|]. congruence.
Qed.

Lemma respects_set_min (R : relation Heap.t) v :
  (∀ h h', Heap.store h' = Heap.store h → R h h') → respects R (set_min v).
Proof. intros HR h. simpl. by apply HR. Qed.

Lemma respects_set_num_nodes (R : relation Heap.t) v :
  (∀ h h', Heap.store h' = Heap.store h → R h h') → respects R (set_num_nodes v).
Proof. intros HR h. simpl. by apply HR. Qed.

(** Discharges the [modify] steps that rewrite ring links, child,
    degree and mark, or clear a parent. *)
Ltac eases_step :=
  first
  [ apply eases_upd; [by intros [] | by intros []; auto | done]
  | apply respects_set_min; apply eases_store
  | apply respects_set_num_nodes; apply eases_store ].

Lemma add_eases self node : respects eases (add self node).
Proof. unfold add. respects_walk; eases_step. Qed.

Lemma remove_eases self : respects eases (remove self).
Proof. unfold remove. respects_walk; eases_step. Qed.




Lemma promote_children_eases rnodes : respects eases (promote_children rnodes).
Proof.
  induction rnodes as [|r rnodes IH]; simpl;
    respects_walk; first [apply add_eases | apply IH | eases_step].
Qed.

Lemma consolidate_rebuild_eases deg_list :
  respects eases (consolidate_rebuild deg_list).
Proof.
  induction deg_list as [|d deg_list IH]; simpl;
    respects_walk; first [apply add_eases | apply IH | eases_step].
Qed.

(** [__link] sets a parent: the order is kept when the key of the new
    parent is not larger than the key of the new child. *)
Lemma set_parent_ordered h node1 node2 n1 n2 :
  heap_ordered h →
  Heap.store h !! node1 = Some n1 →
  Heap.store h !! node2 = Some n2 →
  key_lt (Node.key n1) (Node.key n2) = false →
  heap_ordered (upd node1 (Node.set_parent (Some node2) n1) h).
Proof.
  intros Ho H1 H2 Hlt r n p _ Hr Hp.
  assert (L1 : node1 < length (Heap.store h)) by (eapply lookup_lt_Some; eauto).
  assert (Hkey : ∀ q nq, Heap.store h !! q = Some nq →
            ∃ nq', Heap.store (upd node1 (Node.set_parent (Some node2) n1) h) !! q
                   = Some nq' ∧ Node.key nq' = Node.key nq).
  { intros q nq Hq. rewrite lookup_upd by done.
    destruct (decide (node1 = q)) as [<-|]; [|eauto].
    eexists. split; [done|]. simpl. congruence. }
  rewrite lookup_upd in Hr by done.
  destruct (decide (node1 = r)) as [<-|Hne].
  - injection Hr as <-. simpl in Hp. injection Hp as <-.
    destruct (Hkey _ _ H2) as (n2' & ? & Hk). exists n2'. split; [done|].
    simpl. by rewrite Hk.
  - destruct (Ho r n p I Hr Hp) as (np & Hnp & Hl).
    destruct (Hkey _ _ Hnp) as (np' & ? & Hk). exists np'. split; [done|].
    by rewrite Hk.
Qed.

Lemma eases_lookup_key h h' r n :
  eases h h' → Heap.store h !! r = Some n →
  ∃ n', Heap.store h' !! r = Some n' ∧ Node.key n' = Node.key n.
Proof.
  intros [Hl He] Hr.
  assert (Hlen : r < length (Heap.store h')).
  { rewrite Hl. eapply lookup_lt_Some; eauto. }
  destruct (lookup_lt_is_Some_2 _ _ Hlen) as [n' Hn'].
  destruct (He r n' Hn') as (n0 & Hn0 & Hk & _).
  exists n'. split; [done|]. congruence.
Qed.

Lemma link_ordered node1 node2 h n1 n2 :
  heap_ordered h →
  Heap.store h !! node1 = Some n1 →
  Heap.store h !! node2 = Some n2 →
  key_lt (Node.key n1) (Node.key n2) = false →
  heap_ordered (final (link node1 node2 h)).
Proof.
  intros Ho H1 H2 Hlt. unfold link.
  rewrite final_bind.
  pose proof (remove_eases node1 h) as He.
  destruct (remove node1 h) as [[] h1|e h1] eqn:E1; simpl in He;
    [|by eapply ordered_on_eases].
  assert (Ho1 : heap_ordered h1) by (by eapply ordered_on_eases).
  destruct (eases_lookup_key _ _ _ _ He H1) as (n1' & H1' & Hk1).
  destruct (eases_lookup_key _ _ _ _ He H2) as (n2' & H2' & Hk2).
  rewrite final_bind, (modify_ok _ _ _ _ H1').
  assert (Ho2 : heap_ordered (upd node1 (Node.set_parent (Some node2) n1') h1)).
  { eapply set_parent_ordered; eauto. congruence. }
  revert Ho2. generalize (upd node1 (Node.set_parent (Some node2) n1') h1).
  intros h2 Ho2.
  assert (Hrest : ∀ {A} (m : M A), respects eases m → heap_ordered (final (m h2))).
  { intros A m Hm. eapply ordered_on_eases; [exact Ho2 | apply Hm]. }
  apply Hrest.
  respects_walk; first [apply add_eases | eases_step].
Qed.

(** The [while] loop of [__consolidate] links the root with the larger
    key under the other. *)
Lemma consolidate_while_ordered fuel deg_list xnode node_deg :
  keeps heap_ordered (consolidate_while fuel deg_list xnode node_deg).
Proof.
  revert deg_list xnode node_deg.
  induction fuel as [|fuel IH]; intros deg_list xnode node_deg h Ho; simpl.
  - rewrite final_bind.
    destruct (py_index deg_list node_deg h) as [slot h1|e h1] eqn:E.
    + pose proof (respects_py_index eq deg_list node_deg h) as Heq.
      rewrite E in Heq. simpl in Heq. subst h1. by destruct slot.
    + pose proof (respects_py_index eq deg_list node_deg h) as Heq.
      rewrite E in Heq. simpl in Heq. by subst h1.
  - assert (Hpure : ∀ {A} (l : list A) i, final (py_index l i h) = h).
    { intros A l i. symmetry. apply (respects_py_index eq). }
    rewrite final_bind.
    destruct (py_index deg_list node_deg h) as [slot h1|e h1] eqn:E;
      pose proof (Hpure _ deg_list node_deg) as Hh; rewrite E in Hh;
      simpl in Hh; subst h1; [|done].
    destruct slot as [y0|]; [|done].
    rewrite final_bind, E.
    rewrite final_bind.
    destruct (rd Node.key xnode h) as [kx hx|e hx] eqn:Ex.
    2:{ pose proof (respects_rd eq Node.key xnode h) as Hq.
        rewrite Ex in Hq. simpl in Hq. by subst. }
    apply rd_Returns in Ex as (-> & nx & Hx & ->).
    rewrite final_bind.
    destruct (rd Node.key y0 h) as [ky hy|e hy] eqn:Ey.
    2:{ pose proof (respects_rd eq Node.key y0 h) as Hq.
        rewrite Ey in Hq. simpl in Hq. by subst. }
    apply rd_Returns in Ey as (-> & ny & Hy & ->).
    assert (Hlink : ∀ a b na nb,
              Heap.store h !! a = Some na → Heap.store h !! b = Some nb →
              key_lt (Node.key na) (Node.key nb) = false →
              heap_ordered
                (final ((link a b ≫= λ _,
                         py_setindex deg_list node_deg None ≫= λ dl,
                         consolidate_while fuel dl b (node_deg + 1)) h))).
    { intros a b na nb Ha Hb Hlt.
      rewrite final_bind.
      pose proof (link_ordered a b h na nb Ho Ha Hb Hlt) as Hl.
      destruct (link a b h) as [[] h1|e h1]; simpl in Hl; [|done].
      rewrite final_bind.
      pose proof (respects_py_setindex eq deg_list node_deg None h1) as Hq.
      destruct (py_setindex deg_list node_deg None h1) as [dl h2|e h2];
        simpl in Hq; subst h2; [|done].
      by apply IH. }
    unfold key_gt.
    destruct (key_lt (Node.key ny) (Node.key nx)) eqn:Ecmp.
    + (* xnode.key > ynode.key: the two are swapped *)
      eapply (Hlink xnode y0); eauto.
      destruct (Node.key nx), (Node.key ny); simpl in *; try done.
      apply Z.ltb_ge. apply Z.ltb_lt in Ecmp. lia.
    + eapply (Hlink y0 xnode); eauto.
Qed.

Lemma eases_keeps {A} (m : M A) : respects eases m → keeps heap_ordered m.
Proof. apply respects_keeps. intros h h'. apply ordered_on_eases. Qed.

(** Walks down a body whose steps each keep the heap order. *)
Ltac keeps_walk :=
  repeat match goal with
  | |- keeps _ (consolidate_while _ _ _ _) => apply consolidate_while_ordered
  | |- keeps _ (mret _) => apply eases_keeps, respects_ret; apply _
  | |- keeps _ (raise _) => apply eases_keeps, respects_raise; apply _
  | |- keeps _ (rd _ _) => apply eases_keeps, respects_rd; apply _
  | |- keeps _ get_min => apply eases_keeps, respects_get_min; apply _
  | |- keeps _ the_min => apply eases_keeps, respects_the_min; apply _
  | |- keeps _ get_num_nodes => apply eases_keeps, respects_get_num_nodes; apply _
  | |- keeps _ (set_min _) => apply eases_keeps, respects_set_min, eases_store
  | |- keeps _ (set_num_nodes _) =>
      apply eases_keeps, respects_set_num_nodes, eases_store
  | |- keeps _ (siblings _) => apply eases_keeps, respects_siblings; apply _
  | |- keeps _ (py_setindex _ _ _) => apply eases_keeps, respects_py_setindex; apply _
  | |- keeps _ (int_2log _) => apply eases_keeps, respects_int_2log; apply _
  | |- keeps _ (remove _) => apply eases_keeps, remove_eases
  | |- keeps _ (promote_children _) => apply eases_keeps, promote_children_eases
  | |- keeps _ (consolidate_rebuild _) => apply eases_keeps, consolidate_rebuild_eases
  | |- keeps _ (_ ≫= _) => apply keeps_bind; [ | intros]
  | |- keeps _ (match ?x with _ => _ end) => destruct x
  | |- keeps _ (let (_, _) := ?x in _) => destruct x
  end.

Lemma consolidate_roots_ordered nodes deg_list :
  keeps heap_ordered (consolidate_roots nodes deg_list).
Proof.
  revert deg_list. induction nodes as [|node nodes IH]; intros deg_list; simpl;
    keeps_walk; apply IH.
Qed.

Lemma consolidate_ordered : keeps heap_ordered consolidate.
Proof. unfold consolidate. keeps_walk. apply consolidate_roots_ordered. Qed.

Lemma extract_minimum_ordered : keeps heap_ordered extract_minimum.
Proof. unfold extract_minimum. keeps_walk. apply consolidate_ordered. Qed.

Lemma alloc_ordered k : keeps heap_ordered (alloc k).
Proof.
  intros h Ho r n p _ Hr Hp. simpl in *.
  apply lookup_app_Some in Hr as [Hr|[Hlen Hr]].
  - destruct (Ho r n p I Hr Hp) as (np & Hnp & Hlt).
    exists np. split; [|done]. by apply lookup_app_l_Some.
  - apply list_lookup_singleton_Some in Hr as [_ <-]. discriminate.
Qed.

Lemma insert_ordered k : keeps heap_ordered (insert k).
Proof.
  unfold insert. apply keeps_bind; [apply alloc_ordered|]. intros node.
  keeps_walk. apply eases_keeps, add_eases.
Qed.

Lemma minimum_ordered : keeps heap_ordered minimum.
Proof. unfold minimum. keeps_walk. Qed.


(** Splits a returning sequence of steps into its returning steps. *)
Ltac split_binds :=
  repeat match goal with
  | H : (_ ≫= _) _ = Returns _ _ |- _ =>
      apply bind_Returns in H as (? & ? & ? & H); cbv beta in H
  end.



Lemma Returns_final {A} (m : M A) h a h' : m h = Returns a h' → final (m h) = h'.
Proof. by intros ->. Qed.






(** ** [add] on a ring, and [insert] *)

Lemma lookup_upd_eq r n h :
  r < length (Heap.store h) → Heap.store (upd r n h) !! r = Some n.
Proof. intros L. rewrite lookup_upd by done. by rewrite decide_True. Qed.

Lemma lookup_upd_ne r r' n h :
  r ≠ r' → Heap.store (upd r n h) !! r' = Heap.store h !! r'.
Proof. intros Hne. by apply list_lookup_insert_ne. Qed.

(** Splicing a node that is not yet in the ring of [self]: the call
    returns, and the new node sits between the old left neighbour of
    [self] and [self]. *)
Lemma add_Returns self node h ns nn nl :
  Heap.store h !! self = Some ns →
  Heap.store h !! node = Some nn →
  Heap.store h !! Node.left ns = Some nl →
  node ≠ self → node ≠ Node.left ns →
  ∃ h', add self node h = Returns tt h'
        ∧ Heap.store h' !! node
          = Some (Node.set_right self (Node.set_left (Node.left ns) nn)).
Proof.
  intros Hs Hn Hl Hns Hnl. unfold add.
  assert (Ln : node < length (Heap.store h)) by (eapply lookup_lt_Some; eauto).
  assert (Ll : Node.left ns < length (Heap.store h)) by (eapply lookup_lt_Some; eauto).
  assert (Ls : self < length (Heap.store h)) by (eapply lookup_lt_Some; eauto).
  set (l0 := Node.left ns) in *.
  rewrite bind_unfold, (rd_ok _ _ _ _ Hs). fold l0.
  rewrite bind_unfold, (modify_ok _ _ _ _ Hn).
  set (h2 := upd node (Node.set_left l0 nn) h).
  assert (H2n : Heap.store h2 !! node = Some (Node.set_left l0 nn))
    by (by apply lookup_upd_eq).
  assert (H2s : Heap.store h2 !! self = Some ns)
    by (unfold h2; by rewrite lookup_upd_ne).
  assert (H2l : Heap.store h2 !! l0 = Some nl)
    by (unfold h2; by rewrite lookup_upd_ne).
  assert (L2 : length (Heap.store h2) = length (Heap.store h)) by apply length_upd.
  rewrite bind_unfold, (modify_ok _ _ _ _ H2n).
  set (n2 := Node.set_right self (Node.set_left l0 nn)).
  set (h3 := upd node n2 h2).
  assert (H3n : Heap.store h3 !! node = Some n2)
    by (apply lookup_upd_eq; by rewrite L2).
  assert (H3s : Heap.store h3 !! self = Some ns)
    by (unfold h3; by rewrite lookup_upd_ne).
  assert (H3l : Heap.store h3 !! l0 = Some nl)
    by (unfold h3; by rewrite lookup_upd_ne).
  assert (L3 : length (Heap.store h3) = length (Heap.store h))
    by (unfold h3; by rewrite length_upd).
  rewrite bind_unfold, (rd_ok _ _ _ _ H3s). fold l0.
  rewrite bind_unfold, (modify_ok _ _ _ _ H3l).
  set (h4 := upd l0 (Node.set_right node nl) h3).
  assert (H4n : Heap.store h4 !! node = Some n2)
    by (unfold h4; by rewrite lookup_upd_ne).
  assert (L4 : length (Heap.store h4) = length (Heap.store h))
    by (unfold h4; by rewrite length_upd).
  destruct (lookup_lt_is_Some_2 (Heap.store h4) self) as [ns4 H4s];
    [by rewrite L4|].
  rewrite (modify_ok _ _ _ _ H4s).
  eexists. split; [reflexivity|]. by rewrite lookup_upd_ne.
Qed.

Lemma alloc_lookup_old k h r n :
  Heap.store h !! r = Some n →
  Heap.store (final (alloc k h)) !! r = Some n.
Proof. intros Hr. simpl. by apply lookup_app_l_Some. Qed.

Lemma alloc_lookup_new k h :
  Heap.store (final (alloc k h)) !! length (Heap.store h)
  = Some (Node.init (length (Heap.store h)) k).
Proof. simpl. by apply list_lookup_middle. Qed.

(** ** Marks *)

Lemma lookup_upd_same_node r n h n0 :
  Heap.store h !! r = Some n0 → Heap.store (upd r n h) !! r = Some n.
Proof. intros H. apply lookup_upd_eq. eapply lookup_lt_Some; eauto. Qed.





(** ** The fuel of the loops is enough *)

Lemma never_hangs_ret {A} (a : A) : never_hangs (mret a).
Proof. intros h. unfold mret, M_ret. simpl. discriminate. Qed.

Lemma never_hangs_raise {A} (e : exn) : e ≠ Hangs → never_hangs (@raise A e).
Proof. intros He h. simpl. congruence. Qed.

Lemma never_hangs_bind {A B} (m : M A) (f : A → M B) :
  never_hangs m → (∀ a, never_hangs (f a)) → never_hangs (m ≫= f).
Proof.
  intros Hm Hf h. rewrite bind_unfold. specialize (Hm h).
  destruct (m h) as [a h1|e h1]; [apply Hf | exact Hm].
Qed.

Lemma never_hangs_rd {A} (f : Node.t → A) r : never_hangs (rd f r).
Proof.
  intros h. unfold rd, get. rewrite bind_unfold.
  destruct (_ !! _); unfold mret, M_ret; simpl; discriminate.
Qed.

Lemma never_hangs_modify r g : never_hangs (modify r g).
Proof. intros h. unfold modify. destruct (_ !! _); simpl; discriminate. Qed.

Lemma never_hangs_the_min : never_hangs the_min.
Proof.
  intros h. unfold the_min, get_min. rewrite bind_unfold.
  destruct (Heap.min h); unfold mret, M_ret; simpl; discriminate.
Qed.

Lemma never_hangs_py_index {A} (l : list A) i : never_hangs (py_index l i).
Proof.
  intros h. unfold py_index.
  destruct (_ ≫= _); unfold mret, M_ret; simpl; discriminate.
Qed.

Lemma never_hangs_py_setindex {A} (l : list A) i a :
  never_hangs (py_setindex l i a).
Proof.
  intros h. unfold py_setindex.
  destruct (py_pos _ _); unfold mret, M_ret; simpl; discriminate.
Qed.

Ltac never_hangs_walk :=
  repeat match goal with
  | |- never_hangs (mret _) => apply never_hangs_ret
  | |- never_hangs (raise _) => apply never_hangs_raise; discriminate
  | |- never_hangs (rd _ _) => apply never_hangs_rd
  | |- never_hangs the_min => apply never_hangs_the_min
  | |- never_hangs (modify _ _) => apply never_hangs_modify
  | |- never_hangs (py_index _ _) => apply never_hangs_py_index
  | |- never_hangs (py_setindex _ _ _) => apply never_hangs_py_setindex
  | |- never_hangs (_ ≫= _) => apply never_hangs_bind; [ | intros]
  | |- never_hangs (match ?x with _ => _ end) => destruct x
  end.

Lemma add_never_hangs self node : never_hangs (add self node).
Proof. unfold add. never_hangs_walk. Qed.

Lemma remove_never_hangs self : never_hangs (remove self).
Proof. unfold remove. never_hangs_walk. Qed.

Lemma link_never_hangs node1 node2 : never_hangs (link node1 node2).
Proof.
  unfold link. never_hangs_walk;
    first [apply add_never_hangs | apply remove_never_hangs].
Qed.

Lemma cut_never_hangs node parent : never_hangs (cut node parent).
Proof.
  unfold cut. never_hangs_walk;
    first [apply add_never_hangs | apply remove_never_hangs].
Qed.

Lemma py_pos_range {A} (l : list A) i p :
  py_pos l i = Some p → (- Z.of_nat (length l) ≤ i < Z.of_nat (length l))%Z.
Proof.
  unfold py_pos. cbv zeta.
  destruct (Z.leb_spec 0 i), (Z.ltb_spec i (Z.of_nat (length l))),
    (Z.leb_spec (- Z.of_nat (length l)) i), (Z.ltb_spec i 0);
    simpl; intros; try discriminate; lia.
Qed.

(** The [while] loop of [__consolidate] stops, at the latest with
    IndexError: each round moves [node_deg] one slot up the table. *)
Lemma consolidate_while_fuel fuel deg_list xnode node_deg :
  (Z.of_nat (length deg_list) - node_deg < Z.of_nat fuel
   ∨ node_deg < - Z.of_nat (length deg_list))%Z →
  never_hangs (consolidate_while fuel deg_list xnode node_deg).
Proof.
  revert deg_list xnode node_deg.
  induction fuel as [|fuel IH]; intros deg_list xnode node_deg Hm.
  - intros h. simpl. rewrite bind_unfold. unfold py_index.
    destruct (py_pos deg_list node_deg) as [p|] eqn:Ep; [|simpl; discriminate].
    apply py_pos_range in Ep. lia.
  - simpl. apply never_hangs_bind; [apply never_hangs_py_index|].
    intros [y|]; [|apply never_hangs_ret].
    apply never_hangs_bind; [apply never_hangs_py_index|].
    intros [ynode|]; [|apply never_hangs_raise; discriminate].
    apply never_hangs_bind; [apply never_hangs_rd|]. intros kx.
    apply never_hangs_bind; [apply never_hangs_rd|]. intros ky.
    assert (Hrest : ∀ a b,
      never_hangs (link a b;;
                   deg_list0 ← py_setindex deg_list node_deg None;
                   consolidate_while fuel deg_list0 b (node_deg + 1))).
    { intros a b. apply never_hangs_bind; [apply link_never_hangs|]. intros _ h.
      rewrite bind_unfold. unfold py_setindex.
      destruct (py_pos deg_list node_deg) as [p|] eqn:Ep; [|simpl; discriminate].
      apply py_pos_range in Ep. apply IH. rewrite length_insert. lia. }
    destruct (key_gt kx ky); apply Hrest.
Qed.

Lemma consolidate_roots_never_hangs nodes deg_list :
  never_hangs (consolidate_roots nodes deg_list).
Proof.
  revert deg_list. induction nodes as [|node nodes IH]; intros deg_list; simpl.
  - apply never_hangs_ret.
  - apply never_hangs_bind; [apply never_hangs_rd|]. intros node_deg.
    apply never_hangs_bind.
    + apply consolidate_while_fuel.
      destruct (Z_lt_ge_dec node_deg (- Z.of_nat (length deg_list))); [by right|].
      left. lia.
    + intros [[dl x] d]. never_hangs_walk. apply IH.
Qed.

Lemma respects_Returns {A} (R : relation Heap.t) (m : M A) h a h' :
  respects R m → m h = Returns a h' → R h h'.
Proof. intros Hm H. specialize (Hm h). by rewrite H in Hm. Qed.

Lemma modify_same_Returns {B} (f : Node.t → B) r g h u h' :
  (∀ n, f (g n) = f n) → modify r g h = Returns u h' → same f h h'.
Proof.
  intros Hfg H. apply modify_Returns in H as (n & Hn & ->). by apply same_upd.
Qed.

(** [__cut] changes one mark: that of the node it cuts. *)
Lemma cut_Returns_marks node parent h u h' :
  cut node parent h = Returns u h' →
  view Node.mark h' = <[node := false]> (view Node.mark h).
Proof.
  unfold cut. intros H. split_binds.
  apply modify_Returns in H as (n & Hn & ->).
  repeat match goal with
  | Hx : remove _ _ = Returns _ _ |- _ =>
      apply (respects_Returns _ _ _ _ _ (remove_same Node.mark _ off_ring_mark)) in Hx
  | Hx : add _ _ _ = Returns _ _ |- _ =>
      apply (respects_Returns _ _ _ _ _ (add_same Node.mark _ _ off_ring_mark)) in Hx
  | Hx : rd _ _ _ = Returns _ _ |- _ => apply rd_Returns in Hx as (-> & _)
  | Hx : the_min _ = Returns _ _ |- _ => apply the_min_Returns in Hx as (-> & _)
  | Hx : modify _ _ _ = Returns _ _ |- _ =>
      apply (modify_same_Returns Node.mark) in Hx; [|by intros []]
  | Hx : (if ?c then _ else _) _ = Returns _ _ |- _ => destruct c
  | Hx : mret _ _ = Returns _ _ |- _ => injection Hx as _ <-
  end.
  all: unfold same in *; unfold view, upd; simpl;
    rewrite list_fmap_insert; simpl; unfold view in *; congruence.
Qed.

Lemma marked_unmark (l : list bool) (i : nat) :
  l !! i = Some true →
  S (length (filter (λ b, b = true) (<[i := false]> l)))
  = length (filter (λ b, b = true) l).
Proof.
  revert i. induction l as [|b l IH]; intros i Hi; [done|].
  destruct i as [|i]; simpl in *.
  - injection Hi as ->. rewrite filter_cons_False by done.
    rewrite filter_cons_True by done. done.
  - destruct b.
    + rewrite !filter_cons_True by done. simpl. f_equal. by apply IH.
    + rewrite !filter_cons_False by done. by apply IH.
Qed.

Lemma marked_le_length h : marked h ≤ length (Heap.store h).
Proof.
  unfold marked, view. etrans; [apply length_filter|]. by rewrite length_fmap.
Qed.

(** [__cascading_cut] stops: every round unmarks a marked node. *)
Lemma cascading_cut_rec_fuel fuel node h :
  marked h ≤ fuel → raised (cascading_cut_rec fuel node h) ≠ Some Hangs.
Proof.
  revert node h. induction fuel as [|fuel IH]; intros node h Hm.
  - simpl. rewrite bind_unfold.
    destruct (rd Node.parent node h) as [[parent|] h1|e h1] eqn:E1;
      [| simpl; discriminate | ].
    + apply rd_Returns in E1 as (-> & n & Hn & _).
      rewrite bind_unfold, (rd_ok _ _ _ _ Hn).
      destruct (Node.mark n) eqn:Emk; simpl.
      * exfalso. pose proof (marked_unmark (view Node.mark h) node) as Hu.
        unfold marked in Hm. rewrite <- Hu in Hm; [lia|].
        unfold view. by rewrite list_lookup_fmap, Hn; simpl; rewrite Emk.
      * apply never_hangs_modify.
    + pose proof (never_hangs_rd Node.parent node h) as Hx. by rewrite E1 in Hx.
  - simpl. rewrite bind_unfold.
    destruct (rd Node.parent node h) as [[parent|] h1|e h1] eqn:E1;
      [| simpl; discriminate | ].
    + apply rd_Returns in E1 as (-> & n & Hn & _).
      rewrite bind_unfold, (rd_ok _ _ _ _ Hn).
      destruct (Node.mark n) eqn:Emk; simpl; [|apply never_hangs_modify].
      rewrite bind_unfold.
      destruct (cut node parent h) as [[] hc|e hc] eqn:Ec.
      * apply IH. apply cut_Returns_marks in Ec.
        pose proof (marked_unmark (view Node.mark h) node) as Hu.
        unfold marked in *. rewrite Ec. rewrite <- Hu in Hm; [lia|].
        unfold view. by rewrite list_lookup_fmap, Hn; simpl; rewrite Emk.
      * pose proof (cut_never_hangs node parent h) as Hx. by rewrite Ec in Hx.
    + pose proof (never_hangs_rd Node.parent node h) as Hx. by rewrite E1 in Hx.
Qed.

Lemma cascading_cut_never_hangs node : never_hangs (cascading_cut node).
Proof.
  intros h. unfold cascading_cut. rewrite bind_unfold. simpl.
  apply cascading_cut_rec_fuel, marked_le_length.
Qed.

(** *** The walk of [siblings] *)

Lemma nth_left_add h a b c :
  nth_left h (a + b) c = nth_left h a c ≫= nth_left h b.
Proof.
  revert c. induction a as [|a IH]; intros c; simpl; [done|].
  destruct (Heap.store h !! c) as [n|]; simpl; [apply IH | done].
Qed.

(** A walk that ends took as many rounds as it appended nodes, visited
    only nodes of the store other than [self], and ends with any fuel
    that covers those rounds. *)
Lemma siblings_while_Returns fuel self cur sibs h res h' :
  siblings_while fuel self cur sibs h = Returns res h' →
  ∃ k, length res = length sibs + k
       ∧ nth_left h k cur = Some self
       ∧ (∀ i, i < k → ∃ c, nth_left h i cur = Some c ∧ c ≠ self
                            ∧ c < length (Heap.store h))
       ∧ ∀ fuel', k ≤ fuel' → siblings_while fuel' self cur sibs h = Returns res h'.
Proof.
  revert cur sibs. induction fuel as [|fuel IH]; intros cur sibs H; simpl in H.
  - destruct (decide (cur = self)) as [->|Hne]; [|discriminate].
    injection H as <- <-. exists 0. split; [lia|]. split; [done|].
    split; [lia|]. intros [|f] _; simpl; by rewrite decide_True.
  - destruct (decide (cur = self)) as [->|Hne].
    + injection H as <- <-. exists 0. split; [lia|]. split; [done|].
      split; [lia|]. intros [|f] _; simpl; by rewrite decide_True.
    + apply bind_Returns in H as (l & h1 & Hl & H).
      apply rd_Returns in Hl as (-> & n & Hn & ->).
      destruct (IH _ _ H) as (k & Hlen & Hk & Hbefore & Hfuel).
      exists (S k). rewrite length_app in Hlen. simpl in Hlen.
      split; [lia|]. split; [simpl; by rewrite Hn|]. split.
      * intros [|i] Hi.
        -- exists cur. split; [done|]. split; [done|]. by eapply lookup_lt_Some.
        -- simpl. rewrite Hn. simpl. apply Hbefore. lia.
      * intros [|f] Hf; [lia|]. simpl. rewrite decide_False by done.
        rewrite bind_unfold, (rd_ok _ _ _ _ Hn). apply Hfuel. lia.
Qed.

(** A walk that reaches [self] for the first time after [k] rounds has
    visited [k] different nodes of the store. *)
Lemma walk_bound h self cur k :
  nth_left h k cur = Some self →
  (∀ i, i < k → ∃ c, nth_left h i cur = Some c ∧ c ≠ self
                     ∧ c < length (Heap.store h)) →
  k ≤ length (Heap.store h).
Proof.
  intros Hk Hbefore.
  set (f := λ i, default 0 (nth_left h i cur)).
  assert (Hinj : ∀ i j, i < j → j < k → f i ≠ f j).
  { intros i j Hij Hj Heq.
    destruct (Hbefore i) as (ci & Hci & _ & _); [lia|].
    destruct (Hbefore j) as (cj & Hcj & _ & _); [lia|].
    unfold f in Heq. rewrite Hci, Hcj in Heq. simpl in Heq. subst cj.
    assert (Htail : nth_left h (k - j) ci = Some self).
    { replace k with (j + (k - j)) in Hk by lia.
      rewrite nth_left_add, Hcj in Hk. exact Hk. }
    destruct (Hbefore (i + (k - j))) as (c & Hc & Hne & _); [lia|].
    rewrite nth_left_add, Hci in Hc. simpl in Hc. congruence. }
  assert (Hnd : NoDup (f <$> seq 0 k)).
  { apply NoDup_fmap_2_strong; [|apply NoDup_seq].
    intros i j Hi Hj Heq. apply elem_of_seq in Hi, Hj.
    destruct (Nat.lt_trichotomy i j) as [Hlt|[->|Hgt]]; [|done|].
    - exfalso. by apply (Hinj i j); [|lia|].
    - exfalso. by apply (Hinj j i); [|lia|]. }
  assert (Hsub : f <$> seq 0 k ⊆+ seq 0 (length (Heap.store h))).
  { apply NoDup_submseteq; [done|]. intros x Hx.
    apply list_elem_of_fmap in Hx as (i & -> & Hi). apply elem_of_seq in Hi.
    destruct (Hbefore i) as (c & Hc & _ & Hlt); [lia|].
    unfold f. rewrite Hc. simpl. apply elem_of_seq. lia. }
  apply submseteq_length in Hsub.
  by rewrite length_fmap, !length_seq in Hsub.
Qed.

(** The fuel that [siblings] gives its walk, one round per node of the
    store, is enough: whenever the walk ends at all, with whatever
    fuel, [siblings] returns what it returns. *)
Lemma siblings_fuel self h n fuel res h' :
  Heap.store h !! self = Some n →
  Node.left n ≠ self →
  siblings_while fuel self (Node.left n) [Node.left n] h = Returns res h' →
  siblings self h = Returns res h'.
Proof.
  intros Hn Hne H. unfold siblings.
  rewrite bind_unfold, (rd_ok _ _ _ _ Hn). rewrite decide_False by done.
  rewrite bind_unfold. simpl.
  destruct (siblings_while_Returns _ _ _ _ _ _ _ H) as (k & _ & Hk & Hb & Hfuel).
  apply Hfuel. by eapply walk_bound.
Qed.

(** * Runs on concrete inputs *)

(** C1.  Keys 5, 3, 8, 1, 9, 2 are inserted and [extract_minimum] is
    called six times: the calls hand back 1, 2, 3, 5, 8 and then [None].
    The key 9 is never returned; it dropped out of the root ring when the
    third extraction rebuilt the ring. *)
Theorem C1_sixth_extraction_returns_None :
  returned (run (inserts [5;3;8;1;9;2]%Z ++ replicate 6 ExtractMinimum) Heap.init)
  = Some (replicate 6 PyNone ++
          [PyKey (Int 1); PyKey (Int 2); PyKey (Int 3); PyKey (Int 5);
           PyKey (Int 8); PyNone]).
Proof. vm_compute. reflexivity. Qed.

(** C2.  Keys 1, 3, 4, 2, 5 are inserted and the minimum is extracted
    twice (1, then 2).  Three keys remain, 3, 4 and 5, and [len] says 3,
    yet [minimum] answers 5. *)
Theorem C2_minimum_skips_live_keys :
  returned (run (inserts [1;3;4;2;5]%Z ++
                 [ExtractMinimum; ExtractMinimum; Len; Minimum]) Heap.init)
  = Some (replicate 5 PyNone ++
          [PyKey (Int 1); PyKey (Int 2); PyInt 3; PyKey (Int 5)]).
Proof. vm_compute. reflexivity. Qed.

(** C4.  Keys 1..5 are inserted, the minimum is extracted, and the key
    of the node that held 5 is decreased to 0.  Four nodes remain, one of
    them a root of degree 2; the table of the next consolidation has
    [int(log(4) * 2) = 2] slots, and probing slot 2 raises IndexError. *)
Theorem C4_consolidate_probes_past_the_table :
  ∃ h : Heap.t,
    run (inserts [1;2;3;4;5]%Z ++ [ExtractMinimum; DecreaseKey 4 (Int 0)]) Heap.init
    = Returns (replicate 5 PyNone ++ [PyKey (Int 1); PyNone]) h
    ∧ Heap.num_nodes h = 4%Z
    ∧ returned (int_2log (Heap.num_nodes h) h) = Some 2
    ∧ (Node.parent <$> node_at h 1) = Some None
    ∧ (Node.degree <$> node_at h 1) = Some 2%Z
    ∧ raised (extract_minimum h) = Some IndexError.
Proof. eexists. vm_compute. repeat split; reflexivity. Qed.


(** * The empty heap, and [decrease_key] without a cut *)

(** C7.  On a heap whose [min] is None, [extract_minimum] returns None
    (the way this code reports that there is nothing to extract) and
    changes nothing, however often it is called; on the heap as
    created, [len] stays 0. *)
Theorem C7_extract_minimum_on_empty_heap (st : list Node.t) (n : Z) (k : nat) :
  run (replicate k ExtractMinimum) (Heap.mk st None n)
  = Returns (replicate k PyNone) (Heap.mk st None n)
  ∧ run (replicate k ExtractMinimum ++ [Len]) Heap.init
    = Returns (replicate k PyNone ++ [PyInt 0]) Heap.init.
Proof.
  split.
  - induction k as [|k IH]; [reflexivity|].
    simpl. rewrite bind_unfold. simpl.
    rewrite bind_unfold, IH. reflexivity.
  - induction k as [|k IH]; [reflexivity|].
    simpl. rewrite bind_unfold. simpl.
    rewrite bind_unfold, IH. reflexivity.
Qed.

(** C8.  [decrease_key] with a key larger than the node's returns at
    once: the heap is left exactly as it was. *)
Theorem C8_decrease_key_larger_is_noop
    (h : Heap.t) (node : ref) (n : Node.t) (new_key : Key) :
  Heap.store h !! node = Some n →
  key_gt new_key (Node.key n) = true →
  decrease_key node new_key h = Returns PyNone h.
Proof.
  intros Hn Hgt. unfold decrease_key.
  rewrite bind_unfold, (rd_ok _ _ _ _ Hn), Hgt. reflexivity.
Qed.

Lemma C8_decrease_key_larger_is_noop_witness :
  let h := final (run (inserts [7;3]%Z) Heap.init) in
  decrease_key 1 (Int 5) h = Returns PyNone h.
Proof.
  apply (C8_decrease_key_larger_is_noop _ 1 (Node.mk (Int 3) None None 0 0 0 false));
    reflexivity.
Defined.

(** C10.  [decrease_key] on a root, with a key not larger than the
    root's: the call returns; the store differs only in the [key] of
    that node; [min] becomes the node when the new key is smaller than
    the key of the old minimum and stays otherwise; [num_nodes] is
    unchanged.  No node is cut. *)
Theorem C10_decrease_key_on_root
    (h : Heap.t) (node m : ref) (n nm : Node.t) (new_key : Key) :
  Heap.store h !! node = Some n →
  Node.parent n = None →
  Heap.min h = Some m →
  Heap.store h !! m = Some nm →
  key_gt new_key (Node.key n) = false →
  decrease_key node new_key h
  = Returns PyNone
      (Heap.mk (<[node := Node.set_key new_key n]> (Heap.store h))
               (if key_lt new_key (Node.key nm) then Some node else Some m)
               (Heap.num_nodes h)).
Proof.
  intros Hn Hp Hmin Hm Hgt. unfold decrease_key.
  destruct h as [st mn nn]. simpl in Hmin. subst mn.
  set (h := Heap.mk st (Some m) nn) in *.
  assert (Hlt : node < length (Heap.store h)) by (eapply lookup_lt_Some; eauto).
  rewrite bind_unfold, (rd_ok _ _ _ _ Hn), Hgt.
  rewrite bind_unfold, (modify_ok _ _ _ _ Hn).
  assert (Hn' : Heap.store (upd node (Node.set_key new_key n) h) !! node
                = Some (Node.set_key new_key n)).
  { rewrite lookup_upd by done. by rewrite decide_True. }
  rewrite bind_unfold, (rd_ok _ _ _ _ Hn'). simpl. rewrite Hp.
  rewrite bind_unfold. simpl.
  rewrite bind_unfold, (rd_ok _ _ _ _ Hn').
  rewrite bind_unfold, (the_min_ok m) by done.
  destruct (decide (node = m)) as [->|Hne].
  - rewrite bind_unfold, (rd_ok _ _ _ _ Hn'). simpl.
    assert (nm = n) by congruence. subst nm.
    assert (Hirr : ∀ k, key_lt k k = false).
    { intros [|z]; simpl; [done | apply Z.ltb_irrefl]. }
    rewrite Hirr. rewrite bind_unfold. simpl.
    destruct (key_lt new_key (Node.key n)); reflexivity.
  - assert (Hm' : Heap.store (upd node (Node.set_key new_key n) h) !! m = Some nm).
    { rewrite lookup_upd by done. by rewrite decide_False. }
    rewrite bind_unfold, (rd_ok _ _ _ _ Hm'). simpl.
    destruct (key_lt new_key (Node.key nm)); reflexivity.
Qed.

Lemma C10_decrease_key_on_root_witness :
  let h := final (run (inserts [7;3]%Z) Heap.init) in
  decrease_key 0 (Int 1) h
  = Returns PyNone
      (Heap.mk (<[0 := Node.set_key (Int 1) (Node.mk (Int 7) None None 1 1 0 false)]>
                  (Heap.store h))
               (Some 0) (Heap.num_nodes h)).
Proof.
  apply (C10_decrease_key_on_root _ 0 1 (Node.mk (Int 7) None None 1 1 0 false)
           (Node.mk (Int 3) None None 0 0 0 false) (Int 1)); reflexivity.
Defined.

(** * [insert] *)




(** * Marks of roots *)




(** * Heap order after every public call *)



Lemma Returns_eta {A} (o : outcome A) (a : A) :
  returned o = Some a → o = Returns a (final o).
Proof. destruct o; simpl; [by intros [= ->] | discriminate]. Qed.


(** * Further properties of the code *)

(** ** Counting nodes *)

#[global] Instance tally_preorder : PreOrder tally.
Proof.
  split; [intros h; by split|].
  intros h1 h2 h3 [? ?] [? ?]. split; congruence.
Qed.

Lemma tally_upd r n h : tally h (upd r n h).
Proof. split; [apply length_upd | done]. Qed.

Lemma tally_set_min h v :
  tally h (Heap.mk (Heap.store h) v (Heap.num_nodes h)).
Proof. by split. Qed.

Lemma set_min_tally v : respects tally (set_min v).
Proof. intros h. apply tally_set_min. Qed.

Ltac tally_step :=
  first [ apply tally_upd | apply set_min_tally ].

Lemma add_tally self node : respects tally (add self node).
Proof. unfold add. respects_walk; tally_step. Qed.

Lemma remove_tally self : respects tally (remove self).
Proof. unfold remove. respects_walk; tally_step. Qed.

Lemma link_tally node1 node2 : respects tally (link node1 node2).
Proof.
  unfold link. respects_walk;
    first [apply add_tally | apply remove_tally | tally_step].
Qed.

Lemma cut_tally node parent : respects tally (cut node parent).
Proof.
  unfold cut. respects_walk;
    first [apply add_tally | apply remove_tally | tally_step].
Qed.

Lemma cascading_cut_rec_tally fuel node :
  respects tally (cascading_cut_rec fuel node).
Proof.
  revert node. induction fuel as [|fuel IH]; intros node; simpl;
    respects_walk; first [apply cut_tally | apply IH | tally_step].
Qed.

Lemma cascading_cut_tally node : respects tally (cascading_cut node).
Proof. unfold cascading_cut. respects_walk. apply cascading_cut_rec_tally. Qed.

Lemma promote_children_tally rnodes : respects tally (promote_children rnodes).
Proof.
  induction rnodes as [|r rnodes IH]; simpl;
    respects_walk; first [apply add_tally | apply IH | tally_step].
Qed.

Lemma consolidate_while_tally fuel deg_list xnode node_deg :
  respects tally (consolidate_while fuel deg_list xnode node_deg).
Proof.
  revert deg_list xnode node_deg.
  induction fuel as [|fuel IH]; intros deg_list xnode node_deg; simpl;
    respects_walk; first [apply link_tally | apply IH].
Qed.

Lemma consolidate_roots_tally nodes deg_list :
  respects tally (consolidate_roots nodes deg_list).
Proof.
  revert deg_list. induction nodes as [|node nodes IH]; intros deg_list; simpl;
    respects_walk; first [apply consolidate_while_tally | apply IH].
Qed.

Lemma consolidate_rebuild_tally deg_list :
  respects tally (consolidate_rebuild deg_list).
Proof.
  induction deg_list as [|d deg_list IH]; simpl;
    respects_walk; first [apply add_tally | apply IH | tally_step].
Qed.

Lemma consolidate_tally : respects tally consolidate.
Proof.
  unfold consolidate. respects_walk;
    first [apply consolidate_roots_tally | apply consolidate_rebuild_tally].
Qed.

Lemma insert_Returns_tally k h v h' :
  insert k h = Returns v h' →
  length (Heap.store h') = S (length (Heap.store h))
  ∧ Heap.num_nodes h' = (Heap.num_nodes h + 1)%Z.
Proof.
  unfold insert. intros H.
  apply bind_Returns in H as (node & h1 & Ha & H).
  assert (L1 : length (Heap.store h1) = S (length (Heap.store h))
               ∧ Heap.num_nodes h1 = Heap.num_nodes h).
  { injection Ha as <- <-. simpl. rewrite length_app. simpl. split; [lia|done]. }
  apply bind_Returns in H as (m & h1' & Hm & H). injection Hm as <- <-.
  apply bind_Returns in H as ([] & h2 & Hmid & H).
  assert (T : tally h1 h2).
  { eapply respects_Returns; [|exact Hmid].
    destruct (Heap.min h1); respects_walk; first [apply add_tally | tally_step]. }
  apply bind_Returns in H as (n & h2' & Hn & H). injection Hn as <- <-.
  apply bind_Returns in H as ([] & h3 & Hs & H). injection Hs as <-.
  injection H as _ <-. simpl. destruct T as [T1 T2], L1 as [L1 L2].
  split; congruence.
Qed.

(** [extract_minimum] either finds the heap empty and changes nothing,
    or hands back a key and takes one off [num_nodes]. *)
Lemma extract_minimum_Returns_tally h v h' :
  extract_minimum h = Returns v h' →
  (Heap.min h = None ∧ v = PyNone ∧ h' = h)
  ∨ (∃ k, is_Some (Heap.min h) ∧ v = PyKey k
          ∧ length (Heap.store h') = length (Heap.store h)
          ∧ Heap.num_nodes h' = (Heap.num_nodes h - 1)%Z).
Proof.
  unfold extract_minimum. intros H.
  apply bind_Returns in H as (mn & h0 & Hm & H). injection Hm as <- <-.
  destruct (Heap.min h) as [min_node|] eqn:Emin.
  2:{ left. injection H as <- <-. done. }
  right.
  apply bind_Returns in H as (c & h0 & Hc & H).
  apply rd_Returns in Hc as (-> & _).
  apply bind_Returns in H as ([] & h1 & H1 & H).
  assert (T1 : tally h h1).
  { eapply respects_Returns; [|exact H1].
    destruct c; respects_walk; apply promote_children_tally. }
  apply bind_Returns in H as ([] & h2 & H2 & H).
  pose proof (respects_Returns _ _ _ _ _ (remove_tally min_node) H2) as T2.
  apply bind_Returns in H as (r & h2' & Hr & H).
  apply rd_Returns in Hr as (-> & _).
  apply bind_Returns in H as ([] & h3 & H3 & H).
  assert (T3 : tally h2 h3).
  { eapply respects_Returns; [|exact H3].
    destruct (decide (min_node = r)); respects_walk;
      first [apply consolidate_tally | tally_step]. }
  apply bind_Returns in H as (n & h3' & Hn & H). injection Hn as <- <-.
  apply bind_Returns in H as ([] & h4 & Hs & H). injection Hs as <-.
  apply bind_Returns in H as (k & h4' & Hk & H).
  apply rd_Returns in Hk as (-> & _).
  injection H as <- <-. exists k. simpl.
  destruct T1 as [? ?], T2 as [? ?], T3 as [? ?].
  split; [done|]. split; [done|]. split; congruence.
Qed.

Lemma decrease_key_tally node new_key : respects tally (decrease_key node new_key).
Proof.
  unfold decrease_key. respects_walk;
    first [apply cut_tally | apply cascading_cut_tally | tally_step].
Qed.

(** When [decrease_key] gets past its guard and returns, the heap has a
    minimum: the last statement read [self.min.key]. *)
Lemma decrease_key_Returns_min node new_key h n v h' :
  Heap.store h !! node = Some n →
  key_gt new_key (Node.key n) = false →
  decrease_key node new_key h = Returns v h' →
  is_Some (Heap.min h').
Proof.
  intros Hn Hgt H. unfold decrease_key in H.
  rewrite bind_unfold, (rd_ok _ _ _ _ Hn), Hgt in H.
  split_binds.
  match goal with
  | Hx : the_min _ = Returns _ _ |- _ => apply the_min_Returns in Hx as (-> & Hmin)
  end.
  repeat match goal with
  | Hx : rd _ _ _ = Returns _ _ |- _ => apply rd_Returns in Hx as (-> & _)
  end.
  injection H as _ <-.
  match goal with
  | Hx : (if ?c then _ else _) _ = Returns _ _ |- _ =>
      destruct c; inversion Hx; subst; simpl; eauto
  end.
Qed.

Lemma key_gt_NegInf k : key_gt NegInf k = false.
Proof. by destruct k. Qed.

Lemma delete_Returns_tally node h v h' :
  delete node h = Returns v h' →
  length (Heap.store h') = length (Heap.store h)
  ∧ Heap.num_nodes h' = (Heap.num_nodes h - 1)%Z.
Proof.
  unfold delete. intros H.
  apply bind_Returns in H as (v1 & h1 & Hdk & H).
  apply bind_Returns in H as (v2 & h2 & Hex & H).
  injection H as _ <-.
  pose proof (respects_Returns _ _ _ _ _ (decrease_key_tally node NegInf) Hdk)
    as [T1 T2].
  assert (Hmin : is_Some (Heap.min h1)).
  { pose proof Hdk as Hdk'. unfold decrease_key in Hdk'.
    apply bind_Returns in Hdk' as (k & h0 & Hk & _).
    apply rd_Returns in Hk as (-> & n & Hn & _).
    eapply decrease_key_Returns_min; [exact Hn | apply key_gt_NegInf | exact Hdk]. }
  apply extract_minimum_Returns_tally in Hex as [(Hnone & _)|(k & _ & _ & L & N)].
  - rewrite Hnone in Hmin. by destruct Hmin.
  - split; congruence.
Qed.

Lemma perform_Returns_tally c h v h' :
  perform c h = Returns v h' →
  length (Heap.store h')
  = (if is_insert c then 1 else 0) + length (Heap.store h)
  ∧ Heap.num_nodes h' = (Heap.num_nodes h + size_change c v)%Z.
Proof.
  intros H. destruct c as [k| | |node new_key|node|]; simpl in H |- *.
  - apply insert_Returns_tally in H as [? ?]. done.
  - unfold minimum in H. split_binds.
    apply the_min_Returns in H0 as (-> & _).
    apply rd_Returns in H1 as (-> & _). injection H as <- <-.
    split; [done|lia].
  - apply extract_minimum_Returns_tally in H
      as [(_ & -> & ->)|(k & _ & -> & L & N)]; simpl; split; try done; lia.
  - pose proof (respects_Returns _ _ _ _ _ (decrease_key_tally node new_key) H)
      as [T1 T2].
    split; [done|]. rewrite T2. destruct v; simpl; lia.
  - apply delete_Returns_tally in H as [? ?]. split; [done|].
    destruct v; simpl; lia.
  - apply bind_Returns in H as (z & h1 & Hl & H). injection Hl as <- <-.
    injection H as <- <-. split; [done|simpl; lia].
Qed.

(** ** Keys are left alone *)

Lemma set_min_same {B} (f : Node.t → B) v : respects (same f) (set_min v).
Proof. intros h. reflexivity. Qed.

Ltac same_key_step :=
  first [ apply same_upd; [by intros [] | done] | apply set_min_same ].

Lemma link_same_key node1 node2 : respects (same Node.key) (link node1 node2).
Proof.
  unfold link. respects_walk;
    first [ apply add_same; constructor | apply remove_same; constructor
          | same_key_step ].
Qed.

Lemma promote_children_same_key rnodes :
  respects (same Node.key) (promote_children rnodes).
Proof.
  induction rnodes as [|r rnodes IH]; simpl; respects_walk;
    first [apply add_same; constructor | apply IH | same_key_step].
Qed.

Lemma consolidate_while_same_key fuel deg_list xnode node_deg :
  respects (same Node.key) (consolidate_while fuel deg_list xnode node_deg).
Proof.
  revert deg_list xnode node_deg.
  induction fuel as [|fuel IH]; intros deg_list xnode node_deg; simpl;
    respects_walk; first [apply link_same_key | apply IH].
Qed.

Lemma consolidate_roots_same_key nodes deg_list :
  respects (same Node.key) (consolidate_roots nodes deg_list).
Proof.
  revert deg_list. induction nodes as [|node nodes IH]; intros deg_list; simpl;
    respects_walk; first [apply consolidate_while_same_key | apply IH].
Qed.

Lemma consolidate_rebuild_same_key deg_list :
  respects (same Node.key) (consolidate_rebuild deg_list).
Proof.
  induction deg_list as [|d deg_list IH]; simpl; respects_walk;
    first [apply add_same; constructor | apply IH | same_key_step].
Qed.

Lemma consolidate_same_key : respects (same Node.key) consolidate.
Proof.
  unfold consolidate. respects_walk;
    first [apply consolidate_roots_same_key | apply consolidate_rebuild_same_key].
Qed.

Lemma extract_minimum_Returns_keys h m nm v h' :
  Heap.min h = Some m →
  Heap.store h !! m = Some nm →
  extract_minimum h = Returns v h' →
  v = PyKey (Node.key nm) ∧ view Node.key h' = view Node.key h.
Proof.
  unfold extract_minimum. intros Hmin Hm H.
  apply bind_Returns in H as (mn & h0 & Hg & H). injection Hg as <- <-.
  rewrite Hmin in H.
  apply bind_Returns in H as (c & h0 & Hc & H).
  apply rd_Returns in Hc as (-> & _).
  apply bind_Returns in H as ([] & h1 & H1 & H).
  assert (T1 : same Node.key h h1).
  { eapply respects_Returns; [|exact H1].
    destruct c; respects_walk; apply promote_children_same_key. }
  apply bind_Returns in H as ([] & h2 & H2 & H).
  pose proof (respects_Returns _ _ _ _ _
                (remove_same Node.key m off_ring_key) H2) as T2.
  apply bind_Returns in H as (r & h2' & Hr & H).
  apply rd_Returns in Hr as (-> & _).
  apply bind_Returns in H as ([] & h3 & H3 & H).
  assert (T3 : same Node.key h2 h3).
  { eapply respects_Returns; [|exact H3].
    destruct (decide (m = r)); respects_walk;
      first [apply consolidate_same_key | same_key_step]. }
  apply bind_Returns in H as (n & h3' & Hn & H). injection Hn as <- <-.
  apply bind_Returns in H as ([] & h4 & Hs & H). injection Hs as <-.
  apply bind_Returns in H as (k & h4' & Hk & H).
  apply rd_Returns in Hk as (-> & n4 & Hn4 & ->).
  injection H as <- <-. simpl in Hn4.
  assert (T : same Node.key h h3) by (etrans; [exact T1|]; etrans; eauto).
  split; [|exact T].
  pose proof (same_lookup Node.key h h3 m T) as Hl.
  rewrite Hm, Hn4 in Hl. simpl in Hl. congruence.
Qed.

(** ** Following a call through the store *)

Lemma heap_ext h1 h2 :
  Heap.min h1 = Heap.min h2 →
  Heap.num_nodes h1 = Heap.num_nodes h2 →
  (∀ r, Heap.store h1 !! r = Heap.store h2 !! r) →
  h1 = h2.
Proof.
  destruct h1, h2. simpl. intros -> -> H. f_equal. by apply list_eq.
Qed.

Lemma upd_min r n h : Heap.min (upd r n h) = Heap.min h.
Proof. reflexivity. Qed.

Lemma upd_num_nodes r n h : Heap.num_nodes (upd r n h) = Heap.num_nodes h.
Proof. reflexivity. Qed.

Lemma lookup_upd_dec r n h r' :
  Heap.store (upd r n h) !! r'
  = if decide (r = r')
    then (if decide (r < length (Heap.store h)) then Some n else None)
    else Heap.store h !! r'.
Proof.
  destruct (decide (r = r')) as [<-|Hne].
  - destruct (decide (r < length (Heap.store h))) as [L|L].
    + by apply lookup_upd_eq.
    + apply lookup_ge_None_2. rewrite length_upd. lia.
  - by apply lookup_upd_ne.
Qed.

Lemma bind_assoc {A B C} (m : M A) (f : A → M B) (g : B → M C) h :
  ((m ≫= f) ≫= g) h = (m ≫= λ a, f a ≫= g) h.
Proof. rewrite !bind_unfold. by destruct (m h). Qed.

(** Looks a node up in a store that is a chain of updates. *)
Ltac in_store :=
  repeat (rewrite lookup_upd
            by (rewrite ?length_upd; eapply lookup_lt_Some; eassumption));
  repeat first [ rewrite decide_True by congruence
               | rewrite decide_False by congruence ];
  first [ reflexivity | eassumption ].

(** Runs the next statement of a call whose nodes are all in the store. *)
Ltac run_stmt :=
  rewrite ?bind_assoc;
  first
    [ rewrite bind_unfold; erewrite rd_ok by in_store
    | rewrite bind_unfold; erewrite modify_ok by in_store
    | erewrite rd_ok by in_store
    | erewrite modify_ok by in_store ];
  cbv beta iota;
  cbn [Node.key Node.parent Node.child Node.left Node.right Node.degree Node.mark
       Node.set_key Node.set_parent Node.set_child Node.set_left Node.set_right
       Node.set_degree Node.set_mark].

(** Two heaps that are chains of updates of the same heap are equal
    when they agree at every node. *)
Ltac store_eq :=
  apply heap_ext; [done..|];
  let r := fresh "r" in
  intros r; rewrite !lookup_upd_dec, ?length_upd;
  repeat match goal with
         | |- context [decide (?x = r)] => destruct (decide (x = r)) as [<-|]
         end;
  repeat first [ rewrite decide_True by first [done | lia]
               | rewrite decide_False by congruence ];
  repeat match goal with
         | H : Heap.store _ !! _ = Some _ |- _ => rewrite H
         end;
  try done; try congruence.

(** ** Runs of [insert] *)

Lemma add_Returns_self_left self node h u h' :
  add self node h = Returns u h' →
  Node.left <$> Heap.store h' !! self = Some node.
Proof.
  unfold add. intros H. split_binds.
  apply modify_Returns in H as (n & Hn & ->).
  by erewrite lookup_upd_same_node.
Qed.

Lemma insert_Returns_nonempty k h m nm :
  Heap.min h = Some m →
  Heap.store h !! m = Some nm →
  Node.left nm < length (Heap.store h) →
  ∃ h' nm',
    insert k h = Returns PyNone h'
    ∧ length (Heap.store h') = S (length (Heap.store h))
    ∧ Heap.store h' !! length (Heap.store h)
      = Some (Node.mk k None None (Node.left nm) m 0 false)
    ∧ Heap.store h' !! m = Some nm'
    ∧ Node.key nm' = Node.key nm
    ∧ Node.left nm' = length (Heap.store h)
    ∧ Heap.min h' = (if key_lt k (Node.key nm)
                     then Some (length (Heap.store h)) else Some m)
    ∧ Heap.num_nodes h' = (Heap.num_nodes h + 1)%Z.
Proof.
  intros Hmin Hm Hl. destruct h as [st mn nn]. simpl in *. subst mn.
  destruct (lookup_lt_is_Some_2 _ _ Hl) as [nl Hnl].
  set (new := length st).
  set (h0 := Heap.mk st (Some m) nn).
  set (h1 := final (alloc k h0)).
  assert (Lm : m < new) by (eapply lookup_lt_Some; eauto).
  destruct (add_Returns m new h1 nm (Node.init new k) nl) as (h5 & Hadd & H5n).
  { by apply (alloc_lookup_old k h0). }
  { apply (alloc_lookup_new k h0). }
  { by apply (alloc_lookup_old k h0). }
  { lia. }
  { lia. }
  pose proof (add_same_attrs m new h1) as [Hmin5 Hnum5].
  rewrite (Returns_final _ _ _ _ Hadd) in Hmin5, Hnum5.
  pose proof (add_same Node.key m new off_ring_key h1) as Hkeys.
  rewrite (Returns_final _ _ _ _ Hadd) in Hkeys.
  pose proof (add_Returns_self_left _ _ _ _ _ Hadd) as Hleft.
  assert (L5 : length (Heap.store h5) = S new).
  { rewrite (same_length Node.key h1 h5 Hkeys).
    simpl. rewrite length_app. simpl. lia. }
  destruct (Heap.store h5 !! m) as [nm5|] eqn:H5m; [|done].
  assert (Hk5 : Node.key nm5 = Node.key nm).
  { pose proof (same_lookup Node.key h1 h5 m Hkeys) as Hk.
    pose proof (alloc_lookup_old k h0 m nm Hm) as Hold. fold h1 in Hold.
    rewrite Hold, H5m in Hk. simpl in Hk. congruence. }
  assert (Hblock :
    (m ← the_min; add m new;;
     m ← the_min; mk ← rd Node.key m;
     (if key_lt k mk then set_min (Some new) else mret tt)) h1
    = Returns tt
        (Heap.mk (Heap.store h5)
           (if key_lt k (Node.key nm) then Some new else Some m) nn)).
  { rewrite bind_unfold, (the_min_ok m h1) by reflexivity. cbv beta iota.
    rewrite bind_unfold, Hadd. cbv beta iota.
    rewrite bind_unfold, (the_min_ok m h5) by done. cbv beta iota.
    rewrite bind_unfold, (rd_ok _ _ _ _ H5m), Hk5. cbv beta iota.
    destruct h5 as [st5 mn5 nn5]. simpl in Hmin5, Hnum5. subst mn5 nn5.
    destruct (key_lt k (Node.key nm)); reflexivity. }
  eexists _, nm5. split.
  { unfold insert. rewrite bind_unfold.
    change (alloc k h0) with (Returns new h1). cbv beta iota.
    rewrite bind_unfold.
    change (get_min h1) with (Returns (Some m) h1). cbv beta iota.
    rewrite bind_unfold, Hblock. reflexivity. }
  simpl. split; [exact L5|]. split; [exact H5n|]. split; [exact H5m|].
  split; [exact Hk5|]. split; [|done].
  simpl in Hleft. congruence.
Qed.

(** One more [insert] on a heap with a minimum: the minimum becomes
    the smaller of the old minimum and the new key. *)
Lemma insert_min_is k h m cur :
  min_is h m cur →
  ∃ h' m', insert k h = Returns PyNone h'
           ∧ min_is h' m' (if key_lt k cur then k else cur)
           ∧ Heap.num_nodes h' = (Heap.num_nodes h + 1)%Z.
Proof.
  intros (nm & Hmin & Hm & Hk & Hl).
  destruct (insert_Returns_nonempty k h m nm Hmin Hm Hl)
    as (h' & nm' & Hrun & L & Hnew & Hm' & Hk' & Hl' & Hmin' & Hnum).
  subst cur. destruct (key_lt k (Node.key nm)) eqn:E.
  - exists h', (length (Heap.store h)). split; [done|]. split; [|done].
    eexists. split; [done|]. split; [exact Hnew|]. simpl. split; [done|]. lia.
  - exists h', m. split; [done|]. split; [|done].
    exists nm'. split; [done|]. split; [done|]. split; [done|]. lia.
Qed.

Lemma run_cons c cs h :
  run (c :: cs) h
  = match perform c h with
    | Returns v h1 =>
        match run cs h1 with
        | Returns vs h2 => Returns (v :: vs) h2
        | Raises e h2 => Raises e h2
        end
    | Raises e h1 => Raises e h1
    end.
Proof. reflexivity. Qed.

Lemma run_inserts_min_is ks h m cur :
  min_is h m cur →
  ∃ h' m', run (Insert <$> ks) h = Returns (replicate (length ks) PyNone) h'
           ∧ min_is h' m' (least cur ks)
           ∧ Heap.num_nodes h' = (Heap.num_nodes h + Z.of_nat (length ks))%Z.
Proof.
  revert h m cur. induction ks as [|k ks IH]; intros h m cur Hmin.
  - exists h, m. simpl. split; [done|]. split; [done|]. lia.
  - destruct (insert_min_is k h m cur Hmin) as (h1 & m1 & Hins & Hmin1 & Hnum1).
    destruct (IH _ _ _ Hmin1) as (h2 & m2 & Hrun & Hmin2 & Hnum2).
    exists h2, m2. split; [|split; [exact Hmin2|]].
    + rewrite fmap_cons, run_cons.
      change (perform (Insert k) h) with (insert k h).
      rewrite Hins, Hrun. reflexivity.
    + rewrite Hnum2, Hnum1. simpl length. lia.
Qed.

(** [least] is a smallest element. *)
Lemma least_spec k0 ks :
  least k0 ks ∈ k0 :: ks ∧ ∀ k, k ∈ k0 :: ks → key_lt k (least k0 ks) = false.
Proof.
  revert k0. induction ks as [|k1 ks IH]; intros k0.
  - simpl. split; [constructor|]. intros k Hk.
    apply list_elem_of_singleton in Hk as ->. apply key_lt_irrefl.
  - unfold least. simpl. fold (least (if key_lt k1 k0 then k1 else k0) ks).
    destruct (IH (if key_lt k1 k0 then k1 else k0)) as [Hin Hle].
    split.
    + apply elem_of_cons in Hin as [->|Hin].
      * destruct (key_lt k1 k0); [right; left | left].
      * right. by right.
    + intros k Hk.
      assert (Hc : key_lt (if key_lt k1 k0 then k1 else k0)
                     (least (if key_lt k1 k0 then k1 else k0) ks) = false)
        by (apply Hle; constructor).
      apply elem_of_cons in Hk as [->|Hk]; [|apply elem_of_cons in Hk as [->|Hk]].
      * destruct (key_lt k1 k0) eqn:E; [|exact Hc].
        revert Hc E. generalize (least k1 ks). intros l Hc E.
        destruct k0, k1, l; simpl in *; try done.
        apply Z.ltb_ge in Hc. apply Z.ltb_lt in E. apply Z.ltb_ge. lia.
      * destruct (key_lt k1 k0) eqn:E; [exact Hc|].
        eapply key_ge_trans; [exact E | exact Hc].
      * apply Hle. by right.
Qed.

(** ** What [siblings] returns *)

(** Two rounds of a walk that comes to [self] for the first time after
    [k] rounds are at different nodes. *)
Lemma walk_inj h self cur k i j :
  nth_left h k cur = Some self →
  (∀ i, i < k → ∃ c, nth_left h i cur = Some c ∧ c ≠ self
                     ∧ c < length (Heap.store h)) →
  i < j → j < k → nth_left h i cur ≠ nth_left h j cur.
Proof.
  intros Hk Hbefore Hij Hj Heq.
  destruct (Hbefore i) as (ci & Hci & _ & _); [lia|].
  destruct (Hbefore j) as (cj & Hcj & _ & _); [lia|].
  rewrite Hci, Hcj in Heq. injection Heq as <-.
  assert (Htail : nth_left h (k - j) ci = Some self).
  { replace k with (j + (k - j)) in Hk by lia.
    rewrite nth_left_add, Hcj in Hk. exact Hk. }
  destruct (Hbefore (i + (k - j))) as (c & Hc & Hne & _); [lia|].
  rewrite nth_left_add, Hci in Hc. simpl in Hc. congruence.
Qed.

(** The walk appends the nodes it comes to, in order. *)
Lemma siblings_while_content fuel self cur sibs h res h' :
  siblings_while fuel self cur sibs h = Returns res h' →
  ∃ tl, res = sibs ++ tl
        ∧ nth_left h (length tl) cur = Some self
        ∧ (∀ i, i < length tl → ∃ c, nth_left h i cur = Some c ∧ c ≠ self
                                     ∧ c < length (Heap.store h))
        ∧ ∀ i, i < length tl → tl !! i = nth_left h (S i) cur.
Proof.
  revert cur sibs. induction fuel as [|fuel IH]; intros cur sibs H; simpl in H.
  - destruct (decide (cur = self)) as [->|Hne]; [|discriminate].
    injection H as <- <-. exists []. rewrite app_nil_r. simpl.
    split; [done|]. split; [done|]. split; intros; lia.
  - destruct (decide (cur = self)) as [->|Hne].
    + injection H as <- <-. exists []. rewrite app_nil_r. simpl.
      split; [done|]. split; [done|]. split; intros; lia.
    + apply bind_Returns in H as (l & h1 & Hl & H).
      apply rd_Returns in Hl as (-> & n & Hn & ->).
      destruct (IH _ _ H) as (tl & -> & Hk & Hbefore & Hcontent).
      exists (Node.left n :: tl). rewrite <- app_assoc. simpl.
      split; [done|]. split; [by rewrite Hn|]. split.
      * intros [|i] Hi.
        -- exists cur. split; [done|]. split; [done|]. by eapply lookup_lt_Some.
        -- simpl. rewrite Hn. simpl. apply Hbefore. lia.
      * intros [|i] Hi; simpl; rewrite Hn; simpl; [done|].
        rewrite Hcontent by lia. done.
Qed.

(** A walk that can come to [self] ends when its fuel covers the way. *)
Lemma siblings_while_reaches h self k :
  ∀ cur sibs fuel,
    nth_left h k cur = Some self → k ≤ fuel →
    ∃ res, siblings_while fuel self cur sibs h = Returns res h.
Proof.
  induction k as [|k IH]; intros cur sibs fuel Hk Hf.
  - simpl in Hk. injection Hk as ->.
    exists sibs. destruct fuel; simpl; by rewrite decide_True.
  - destruct (decide (cur = self)) as [->|Hne].
    { exists sibs. destruct fuel; simpl; by rewrite decide_True. }
    simpl in Hk. destruct (Heap.store h !! cur) as [n|] eqn:Hn; [|done].
    simpl in Hk. destruct fuel as [|fuel]; [lia|].
    destruct (IH (Node.left n) (sibs ++ [Node.left n]) fuel Hk) as [res Hres]; [lia|].
    exists res. simpl. rewrite decide_False by done.
    by rewrite bind_unfold, (rd_ok _ _ _ _ Hn).
Qed.

(** [siblings] reads the heap only, and returns the nodes that the
    [left] links lead to from [self], up to [self] itself, which comes
    last and only once. *)
Lemma siblings_Returns self h res h' :
  siblings self h = Returns res h' →
  h' = h
  ∧ ∃ k, length res = S k
         ∧ (∀ i, i ≤ k → res !! i = nth_left h (S i) self)
         ∧ nth_left h (S k) self = Some self
         ∧ (∀ i c, i < k → res !! i = Some c → c ≠ self)
         ∧ NoDup res.
Proof.
  intros H. split.
  { symmetry. by apply (respects_Returns eq _ _ _ _ (respects_siblings eq self) H). }
  unfold siblings in H.
  apply bind_Returns in H as (l & h1 & Hl & H).
  apply rd_Returns in Hl as (-> & n & Hn & ->).
  destruct (decide (Node.left n = self)) as [El|Hne].
  - injection H as <- <-. exists 0. simpl. rewrite Hn. simpl.
    split; [done|]. split.
    { intros i Hi. replace i with 0 by lia. simpl. by rewrite El. }
    split; [by rewrite El|]. split; [intros; lia|].
    apply NoDup_singleton.
  - apply bind_Returns in H as (c & h2 & Hc & H). injection Hc as <- <-.
    apply siblings_while_content in H as (tl & -> & Hk & Hbefore & Hcontent).
    set (k := length tl) in *.
    assert (Hat : ∀ i, i ≤ k →
              ([Node.left n] ++ tl) !! i = nth_left h i (Node.left n)).
    { intros [|i] Hi; [done|]. simpl. rewrite Hcontent by lia. done. }
    exists k. split; [done|]. split.
    { intros i Hi. rewrite Hat by done. simpl. by rewrite Hn. }
    split; [simpl; by rewrite Hn|]. split.
    { intros i c Hi Hc. rewrite Hat in Hc by lia.
      destruct (Hbefore i Hi) as (c' & Hc' & Hne' & _). congruence. }
    apply NoDup_alt. intros i j x Hi Hj.
    assert (Li : i ≤ k).
    { apply lookup_lt_Some in Hi. simpl in Hi. fold k in Hi. lia. }
    assert (Lj : j ≤ k).
    { apply lookup_lt_Some in Hj. simpl in Hj. fold k in Hj. lia. }
    rewrite Hat in Hi, Hj by done.
    assert (Hlast : ∀ a b y, a < b → b ≤ k →
              nth_left h a (Node.left n) = Some y →
              nth_left h b (Node.left n) = Some y → False).
    { intros a b y Hab Hb Ha Hb'.
      destruct (decide (b = k)) as [->|Hbk].
      - destruct (Hbefore a Hab) as (c & Hc & Hcs & _). congruence.
      - apply (walk_inj h self (Node.left n) k a b Hk Hbefore Hab); [lia|].
        congruence. }
    destruct (Nat.lt_trichotomy i j) as [Hlt|[->|Hgt]]; [|done|].
    + exfalso. eapply (Hlast i j); eauto.
    + exfalso. eapply (Hlast j i); eauto.
Qed.

(** ** What [decrease_key] and [delete] do to keys and to [min] *)

Lemma key_antisym a b : key_lt a b = false → key_lt b a = false → a = b.
Proof.
  destruct a as [|x], b as [|y]; simpl; try done.
  intros H1 H2. apply Z.ltb_ge in H1, H2. f_equal. lia.
Qed.

Lemma cut_same_key node parent : respects (same Node.key) (cut node parent).
Proof.
  unfold cut. respects_walk;
    first [ apply add_same; constructor | apply remove_same; constructor
          | same_key_step ].
Qed.

Lemma cascading_cut_rec_same_key fuel node :
  respects (same Node.key) (cascading_cut_rec fuel node).
Proof.
  revert node. induction fuel as [|fuel IH]; intros node; simpl;
    respects_walk; first [apply cut_same_key | apply IH | same_key_step].
Qed.

Lemma cascading_cut_same_key node : respects (same Node.key) (cascading_cut node).
Proof. unfold cascading_cut. respects_walk. apply cascading_cut_rec_same_key. Qed.

Lemma cut_same_attrs node parent : respects same_attrs (cut node parent).
Proof.
  unfold cut. respects_walk;
    first [ apply add_same_attrs | apply remove_same_attrs | apply same_attrs_upd ].
Qed.

Lemma cascading_cut_rec_same_attrs fuel node :
  respects same_attrs (cascading_cut_rec fuel node).
Proof.
  revert node. induction fuel as [|fuel IH]; intros node; simpl;
    respects_walk;
    first [apply cut_same_attrs | apply IH | apply same_attrs_upd].
Qed.

Lemma cascading_cut_same_attrs node : respects same_attrs (cascading_cut node).
Proof. unfold cascading_cut. respects_walk. apply cascading_cut_rec_same_attrs. Qed.

Lemma view_upd {B} (f : Node.t → B) r n h :
  view f (upd r n h) = <[r := f n]> (view f h).
Proof. unfold view, upd. simpl. apply list_fmap_insert. Qed.

(** A [decrease_key] that gets past its guard and returns: the key of
    the node is the new key, no other key has changed, and [min] is the
    node if the new key is below the key that [min] had, else as it was. *)
Lemma decrease_key_Returns node k h nn v h' :
  Heap.store h !! node = Some nn →
  key_gt k (Node.key nn) = false →
  decrease_key node k h = Returns v h' →
  v = PyNone
  ∧ view Node.key h' = <[node := k]> (view Node.key h)
  ∧ Heap.num_nodes h' = Heap.num_nodes h
  ∧ ∃ m nm, Heap.min h = Some m ∧ Heap.store h !! m = Some nm
            ∧ Heap.min h' = Some (if key_lt k (Node.key nm) then node else m).
Proof.
  intros Hn Hgt H. unfold decrease_key in H.
  rewrite bind_unfold, (rd_ok _ _ _ _ Hn), Hgt in H.
  apply bind_Returns in H as ([] & h1 & Hset & H).
  apply modify_Returns in Hset as (n0 & Hn0 & ->).
  rewrite Hn in Hn0. injection Hn0 as <-.
  set (h1 := upd node (Node.set_key k nn) h) in *.
  apply bind_Returns in H as (parent & h1' & Hp & H).
  apply rd_Returns in Hp as (-> & np & _ & ->).
  apply bind_Returns in H as ([] & h2 & Hmid & H).
  assert (Hk12 : same Node.key h1 h2).
  { eapply respects_Returns; [|exact Hmid]. respects_walk;
      first [apply cut_same_key | apply cascading_cut_same_key]. }
  assert (Ha12 : same_attrs h1 h2).
  { eapply respects_Returns; [|exact Hmid]. respects_walk;
      first [apply cut_same_attrs | apply cascading_cut_same_attrs]. }
  destruct Ha12 as [Hmin2 Hnum2]. simpl in Hmin2, Hnum2.
  assert (Hkeys : view Node.key h2 = <[node := k]> (view Node.key h)).
  { rewrite Hk12. apply (view_upd Node.key). }
  apply bind_Returns in H as (kn & h3 & Hkn & H).
  apply rd_Returns in Hkn as (-> & n2 & Hn2 & ->).
  apply bind_Returns in H as (m' & h3 & Hm' & H).
  apply the_min_Returns in Hm' as (-> & Hm').
  rename m' into m. assert (Hmin : Heap.min h = Some m) by congruence.
  assert (Lm : m < length (Heap.store h)).
  { rewrite <- (length_upd node (Node.set_key k nn) h). fold h1.
    rewrite <- (same_length Node.key h1 h2 Hk12).
    apply bind_Returns in H as (km & h3 & Hkm & _).
    apply rd_Returns in Hkm as (_ & nm2 & Hnm2 & _). by eapply lookup_lt_Some. }
  destruct (lookup_lt_is_Some_2 _ _ Lm) as [nm Hm].
  apply bind_Returns in H as (km & h3 & Hkm & H).
  apply rd_Returns in Hkm as (-> & nm2 & Hnm2 & ->).
  apply bind_Returns in H as ([] & h4 & Hif & H). injection H as <- <-.
  assert (Ln : node < length (view Node.key h)).
  { unfold view. rewrite length_fmap. by eapply lookup_lt_Some. }
  assert (Kn : Node.key n2 = k).
  { assert (Hx : view Node.key h2 !! node = Some (Node.key n2))
      by (unfold view; by rewrite list_lookup_fmap, Hn2).
    rewrite Hkeys, list_lookup_insert_eq in Hx by done. congruence. }
  assert (Km : Node.key nm2 = if decide (m = node) then k else Node.key nm).
  { assert (Hx : view Node.key h2 !! m = Some (Node.key nm2))
      by (unfold view; by rewrite list_lookup_fmap, Hnm2).
    rewrite Hkeys in Hx. destruct (decide (m = node)) as [->|Hne].
    - rewrite list_lookup_insert_eq in Hx by done. congruence.
    - rewrite list_lookup_insert_ne in Hx by done.
      unfold view in Hx. rewrite list_lookup_fmap, Hm in Hx.
      simpl in Hx. congruence. }
  rewrite Kn, Km in Hif.
  split; [done|].
  destruct (decide (m = node)) as [->|Hne].
  - rewrite key_lt_irrefl in Hif. injection Hif as <-.
    split; [done|]. split; [done|]. exists node, nm.
    split; [done|]. split; [done|]. rewrite Hmin2. simpl. rewrite Hmin.
    by destruct (key_lt _ _).
  - destruct (key_lt k (Node.key nm)) eqn:E.
    + injection Hif as <-. simpl. split; [done|]. split; [done|].
      exists m, nm. by rewrite E.
    + injection Hif as <-. split; [done|]. split; [done|].
      exists m, nm. rewrite E, Hmin2. done.
Qed.

Lemma view_lookup_rd {B} (f : Node.t → B) h r b :
  view f h !! r = Some b → rd f r h = Returns b h.
Proof.
  unfold view. rewrite list_lookup_fmap.
  destruct (Heap.store h !! r) as [n|] eqn:Hn; [|done].
  intros [= <-]. by apply rd_ok.
Qed.

Lemma extract_minimum_same_key : respects (same Node.key) extract_minimum.
Proof.
  unfold extract_minimum. respects_walk;
    first [ apply promote_children_same_key | apply remove_same; constructor
          | apply consolidate_same_key | same_key_step
          | intros h; reflexivity ].
Qed.

(** ** What [__cut] and [__link] write *)

Lemma modify_view {B} (f : Node.t → B) r g h u h' n :
  Heap.store h !! r = Some n →
  modify r g h = Returns u h' →
  view f h' = <[r := f (g n)]> (view f h).
Proof.
  intros Hn H. apply modify_Returns in H as (n0 & Hn0 & ->).
  rewrite Hn in Hn0. injection Hn0 as <-. apply view_upd.
Qed.

Lemma modify_Returns_same {B} (f : Node.t → B) r g h u h' :
  modify r g h = Returns u h' → (∀ n, f (g n) = f n) → view f h' = view f h.
Proof. intros H Hfg. by apply (modify_same_Returns f r g h u h'). Qed.

Lemma same_view_lookup {B} (f : Node.t → B) h h' r n :
  same f h h' → Heap.store h !! r = Some n →
  ∃ n', Heap.store h' !! r = Some n' ∧ f n' = f n.
Proof.
  intros Hs Hn. pose proof (same_lookup f h h' r Hs) as Hl.
  rewrite Hn in Hl. destruct (Heap.store h' !! r) as [n'|]; [|done].
  exists n'. split; [done|]. simpl in Hl. congruence.
Qed.

(** [remove] leaves the [right] of the node it takes out as it was. *)
Lemma remove_Returns_own_right self h ns u h' :
  Heap.store h !! self = Some ns →
  remove self h = Returns u h' →
  Node.right <$> Heap.store h' !! self = Some (Node.right ns).
Proof.
  intros Hs H. unfold remove in H.
  apply bind_Returns in H as (r & h0 & Hr & H).
  apply rd_Returns in Hr as (-> & n0 & Hn0 & ->).
  rewrite Hs in Hn0. injection Hn0 as <-.
  apply bind_Returns in H as (l & h0 & Hl & H).
  apply rd_Returns in Hl as (-> & n0 & Hn0 & ->).
  rewrite Hs in Hn0. injection Hn0 as <-.
  apply bind_Returns in H as ([] & h1 & H1 & H).
  apply modify_Returns in H1 as (nl & Hnl & ->).
  apply bind_Returns in H as (l' & h0 & Hl' & H).
  apply rd_Returns in Hl' as (-> & n1 & Hn1 & ->).
  apply bind_Returns in H as (r' & h0 & Hr' & H).
  apply rd_Returns in Hr' as (-> & n1' & Hn1' & ->).
  rewrite Hn1 in Hn1'. injection Hn1' as <-.
  apply modify_Returns in H as (nr & Hnr & ->).
  assert (R1 : Node.right n1 = Node.right ns).
  { rewrite lookup_upd_dec in Hn1.
    destruct (decide (Node.left ns = self)) as [E|E].
    - rewrite E in Hnl. rewrite Hs in Hnl. injection Hnl as <-.
      case_decide; [|done]. by injection Hn1 as <-.
    - congruence. }
  rewrite lookup_upd by (by eapply lookup_lt_Some).
  destruct (decide (Node.right n1 = self)) as [E|E].
  - rewrite E in Hnr. rewrite Hn1 in Hnr. injection Hnr as <-.
    simpl. by rewrite R1.
  - rewrite Hn1. simpl. by rewrite R1.
Qed.

(** The columns of the store after [__cut]. *)
Lemma cut_Returns_columns node parent h nn np u h' :
  Heap.store h !! node = Some nn →
  Heap.store h !! parent = Some np →
  cut node parent h = Returns u h' →
  view Node.parent h' = <[node := None]> (view Node.parent h)
  ∧ view Node.mark h' = <[node := false]> (view Node.mark h)
  ∧ view Node.degree h' = <[parent := (Node.degree np - 1)%Z]> (view Node.degree h)
  ∧ view Node.child h'
    = (if decide (Node.right nn = node)
       then <[parent := None]> (view Node.child h) else view Node.child h).
Proof.
  intros Hn Hp H. unfold cut in H.
  apply bind_Returns in H as ([] & h1 & Hrm & H).
  pose proof (remove_Returns_own_right _ _ _ _ _ Hn Hrm) as Hright.
  assert (S1 : ∀ B (f : Node.t → B), off_ring f → view f h1 = view f h).
  { intros B f Hf. exact (respects_Returns _ _ _ _ _ (remove_same f node Hf) Hrm). }
  apply bind_Returns in H as (r & h0 & Hr & H).
  apply rd_Returns in Hr as (-> & n1 & Hn1 & ->).
  rewrite Hn1 in Hright. simpl in Hright. injection Hright as Hright.
  rewrite Hright in H.
  apply bind_Returns in H as ([] & h2 & Hif & H).
  apply bind_Returns in H as (d & h0 & Hd & H).
  apply rd_Returns in Hd as (-> & np2 & Hnp2 & ->).
  apply bind_Returns in H as ([] & h3 & Hdeg & H).
  apply bind_Returns in H as (m & h0 & Hm & H).
  apply the_min_Returns in Hm as (-> & Hm).
  apply bind_Returns in H as ([] & h4 & Hadd & H).
  assert (S4 : ∀ B (f : Node.t → B), off_ring f → view f h4 = view f h3).
  { intros B f Hf. exact (respects_Returns _ _ _ _ _ (add_same f m node Hf) Hadd). }
  apply bind_Returns in H as ([] & h5 & Hpar & H).
  destruct (modify_Returns _ _ _ _ _ Hpar) as (n4 & Hn4 & _).
  destruct (modify_Returns _ _ _ _ _ H) as (n5 & Hn5 & _).
  assert (C2 : view Node.child h2
               = (if decide (Node.right nn = node)
                  then <[parent := None]> (view Node.child h) else view Node.child h)
               ∧ (∀ B (f : Node.t → B), (∀ v n, f (Node.set_child v n) = f n) →
                    view f h2 = view f h1)).
  { destruct (decide (Node.right nn = node)).
    - destruct (modify_Returns _ _ _ _ _ Hif) as (np1 & Hnp1 & ->). split.
      + rewrite view_upd. simpl. by rewrite (S1 _ _ off_ring_child).
      + intros B f Hf. apply (same_upd f); [|done]. intros; apply Hf.
    - injection Hif as <-. split; [apply (S1 _ _ off_ring_child) | reflexivity]. }
  destruct C2 as [C2 S2].
  assert (D2 : Node.degree np2 = Node.degree np).
  { assert (Hx : view Node.degree h2 !! parent = Some (Node.degree np2))
      by (unfold view; by rewrite list_lookup_fmap, Hnp2).
    rewrite (S2 _ Node.degree (λ _ _, eq_refl)), (S1 _ _ off_ring_degree) in Hx.
    unfold view in Hx. rewrite list_lookup_fmap, Hp in Hx. simpl in Hx. congruence. }
  split; [|split; [|split]].
  - rewrite (modify_Returns_same Node.parent _ _ _ _ _ H (λ _, eq_refl)).
    rewrite (modify_view Node.parent _ _ _ _ _ _ Hn4 Hpar). simpl.
    rewrite (S4 _ _ off_ring_parent).
    rewrite (modify_Returns_same Node.parent _ _ _ _ _ Hdeg (λ _, eq_refl)).
    by rewrite (S2 _ Node.parent (λ _ _, eq_refl)), (S1 _ _ off_ring_parent).
  - rewrite (modify_view Node.mark _ _ _ _ _ _ Hn5 H). simpl.
    rewrite (modify_Returns_same Node.mark _ _ _ _ _ Hpar (λ _, eq_refl)).
    rewrite (S4 _ _ off_ring_mark).
    rewrite (modify_Returns_same Node.mark _ _ _ _ _ Hdeg (λ _, eq_refl)).
    by rewrite (S2 _ Node.mark (λ _ _, eq_refl)), (S1 _ _ off_ring_mark).
  - rewrite (modify_Returns_same Node.degree _ _ _ _ _ H (λ _, eq_refl)).
    rewrite (modify_Returns_same Node.degree _ _ _ _ _ Hpar (λ _, eq_refl)).
    rewrite (S4 _ _ off_ring_degree).
    rewrite (modify_view Node.degree _ _ _ _ _ _ Hnp2 Hdeg). simpl.
    by rewrite D2, (S2 _ Node.degree (λ _ _, eq_refl)), (S1 _ _ off_ring_degree).
  - rewrite (modify_Returns_same Node.child _ _ _ _ _ H (λ _, eq_refl)).
    rewrite (modify_Returns_same Node.child _ _ _ _ _ Hpar (λ _, eq_refl)).
    rewrite (S4 _ _ off_ring_child).
    by rewrite (modify_Returns_same Node.child _ _ _ _ _ Hdeg (λ _, eq_refl)).
Qed.

(** After [__cut], the node is the left neighbour of [min]. *)
Lemma cut_Returns_left_of_min node parent h m u h' :
  Heap.min h = Some m →
  cut node parent h = Returns u h' →
  Node.left <$> Heap.store h' !! m = Some node.
Proof.
  intros Hmin H. unfold cut in H.
  apply bind_Returns in H as ([] & h1 & Hrm & H).
  apply bind_Returns in H as (r & h0 & Hr & H).
  apply rd_Returns in Hr as (-> & n1 & Hn1 & ->).
  apply bind_Returns in H as ([] & h2 & Hif & H).
  apply bind_Returns in H as (d & h0 & Hd & H).
  apply rd_Returns in Hd as (-> & np2 & Hnp2 & ->).
  apply bind_Returns in H as ([] & h3 & Hdeg & H).
  apply bind_Returns in H as (m' & h0 & Hm & H).
  apply the_min_Returns in Hm as (-> & Hm).
  apply bind_Returns in H as ([] & h4 & Hadd & H).
  apply bind_Returns in H as ([] & h5 & Hpar & H).
  assert (m' = m).
  { destruct (respects_Returns _ _ _ _ _ (remove_same_attrs node) Hrm) as [E1 _].
    assert (E2 : Heap.min h2 = Heap.min h1).
    { destruct (decide _).
      - by apply modify_Returns in Hif as (? & _ & ->).
      - by injection Hif as <-. }
    apply modify_Returns in Hdeg as (? & _ & ->). simpl in Hm. congruence. }
  subst m'.
  pose proof (add_Returns_self_left _ _ _ _ _ Hadd) as Hl.
  assert (Hx : view Node.left h4 !! m = Some node)
    by (unfold view; by rewrite list_lookup_fmap).
  rewrite <- (modify_Returns_same Node.left _ _ _ _ _ Hpar (λ _, eq_refl)) in Hx.
  rewrite <- (modify_Returns_same Node.left _ _ _ _ _ H (λ _, eq_refl)) in Hx.
  unfold view in Hx. by rewrite list_lookup_fmap in Hx.
Qed.

(** The columns of the store after [__link]. *)
Lemma link_Returns_columns node1 node2 h n2 u h' :
  Heap.store h !! node2 = Some n2 →
  link node1 node2 h = Returns u h' →
  view Node.parent h' = <[node1 := Some node2]> (view Node.parent h)
  ∧ view Node.mark h' = <[node1 := false]> (view Node.mark h)
  ∧ view Node.degree h' = <[node2 := (Node.degree n2 + 1)%Z]> (view Node.degree h)
  ∧ view Node.child h'
    = (if Node.child n2 is None
       then <[node2 := Some node1]> (view Node.child h) else view Node.child h).
Proof.
  intros Hp H. unfold link in H.
  apply bind_Returns in H as ([] & h1 & Hrm & H).
  assert (S1 : ∀ B (f : Node.t → B), off_ring f → view f h1 = view f h).
  { intros B f Hf. exact (respects_Returns _ _ _ _ _ (remove_same f node1 Hf) Hrm). }
  apply bind_Returns in H as ([] & h2 & Hpar & H).
  destruct (modify_Returns _ _ _ _ _ Hpar) as (n1 & Hn1 & _).
  apply bind_Returns in H as (c & h0 & Hc & H).
  apply rd_Returns in Hc as (-> & n2' & Hn2' & ->).
  apply bind_Returns in H as ([] & h3 & Hmid & H).
  apply bind_Returns in H as (d & h0 & Hd & H).
  apply rd_Returns in Hd as (-> & n23 & Hn23 & ->).
  apply bind_Returns in H as ([] & h4 & Hdeg & H).
  destruct (modify_Returns _ _ _ _ _ H) as (n14 & Hn14 & _).
  assert (C2 : Node.child n2' = Node.child n2).
  { assert (Hx : view Node.child h2 !! node2 = Some (Node.child n2'))
      by (unfold view; by rewrite list_lookup_fmap, Hn2').
    rewrite (modify_Returns_same Node.child _ _ _ _ _ Hpar (λ _, eq_refl)) in Hx.
    rewrite (S1 _ _ off_ring_child) in Hx.
    unfold view in Hx. rewrite list_lookup_fmap, Hp in Hx. simpl in Hx. congruence. }
  rewrite C2 in Hmid.
  assert (S3 : (∀ B (f : Node.t → B), off_ring f →
                  (∀ v n, f (Node.set_child v n) = f n) → view f h3 = view f h2)
               ∧ view Node.child h3
                 = (if Node.child n2 is None
                    then <[node2 := Some node1]> (view Node.child h2)
                    else view Node.child h2)).
  { destruct (Node.child n2) as [c|].
    - split; [|exact (respects_Returns _ _ _ _ _ (add_same _ c node1 off_ring_child) Hmid)].
      intros B f Hf _.
      exact (respects_Returns _ _ _ _ _ (add_same f c node1 Hf) Hmid).
    - apply bind_Returns in Hmid as ([] & ha & Ha & Hmid).
      apply bind_Returns in Hmid as ([] & hb & Hb & Hmid).
      destruct (modify_Returns _ _ _ _ _ Hmid) as (nb & Hnb & _).
      split.
      + intros B f Hf Hch.
        rewrite (modify_Returns_same f _ _ _ _ _ Hmid (Hch _)).
        rewrite (modify_Returns_same f _ _ _ _ _ Hb
                   (λ n, off_ring_set_right f _ n Hf)).
        by rewrite (modify_Returns_same f _ _ _ _ _ Ha
                      (λ n, off_ring_set_left f _ n Hf)).
      + rewrite (modify_view Node.child _ _ _ _ _ _ Hnb Hmid). simpl.
        rewrite (modify_Returns_same Node.child _ _ _ _ _ Hb (λ _, eq_refl)).
        by rewrite (modify_Returns_same Node.child _ _ _ _ _ Ha (λ _, eq_refl)). }
  destruct S3 as [S3 C3].
  assert (D3 : Node.degree n23 = Node.degree n2).
  { assert (Hx : view Node.degree h3 !! node2 = Some (Node.degree n23))
      by (unfold view; by rewrite list_lookup_fmap, Hn23).
    rewrite (S3 _ _ off_ring_degree (λ _ _, eq_refl)) in Hx.
    rewrite (modify_Returns_same Node.degree _ _ _ _ _ Hpar (λ _, eq_refl)) in Hx.
    rewrite (S1 _ _ off_ring_degree) in Hx.
    unfold view in Hx. rewrite list_lookup_fmap, Hp in Hx. simpl in Hx. congruence. }
  split; [|split; [|split]].
  - rewrite (modify_Returns_same Node.parent _ _ _ _ _ H (λ _, eq_refl)).
    rewrite (modify_Returns_same Node.parent _ _ _ _ _ Hdeg (λ _, eq_refl)).
    rewrite (S3 _ _ off_ring_parent (λ _ _, eq_refl)).
    rewrite (modify_view Node.parent _ _ _ _ _ _ Hn1 Hpar). simpl.
    by rewrite (S1 _ _ off_ring_parent).
  - rewrite (modify_view Node.mark _ _ _ _ _ _ Hn14 H). simpl.
    rewrite (modify_Returns_same Node.mark _ _ _ _ _ Hdeg (λ _, eq_refl)).
    rewrite (S3 _ _ off_ring_mark (λ _ _, eq_refl)).
    rewrite (modify_Returns_same Node.mark _ _ _ _ _ Hpar (λ _, eq_refl)).
    by rewrite (S1 _ _ off_ring_mark).
  - rewrite (modify_Returns_same Node.degree _ _ _ _ _ H (λ _, eq_refl)).
    rewrite (modify_view Node.degree _ _ _ _ _ _ Hn23 Hdeg). simpl.
    rewrite D3, (S3 _ _ off_ring_degree (λ _ _, eq_refl)).
    rewrite (modify_Returns_same Node.degree _ _ _ _ _ Hpar (λ _, eq_refl)).
    by rewrite (S1 _ _ off_ring_degree).
  - rewrite (modify_Returns_same Node.child _ _ _ _ _ H (λ _, eq_refl)).
    rewrite (modify_Returns_same Node.child _ _ _ _ _ Hdeg (λ _, eq_refl)).
    rewrite C3.
    rewrite (modify_Returns_same Node.child _ _ _ _ _ Hpar (λ _, eq_refl)).
    by rewrite (S1 _ _ off_ring_child).
Qed.

(** ** Extracting the only node *)

Lemma ret_bind {A B} (a : A) (f : A → M B) h : (mret a ≫= f) h = f a h.
Proof. reflexivity. Qed.

Lemma extract_minimum_only_root h m nm :
  Heap.min h = Some m →
  Heap.store h !! m = Some nm →
  Node.child nm = None → Node.left nm = m → Node.right nm = m →
  extract_minimum h
  = Returns (PyKey (Node.key nm))
      (Heap.mk (Heap.store h) None (Heap.num_nodes h - 1)).
Proof.
  intros Hmin Hm Hc Hl Hr.
  destruct nm as [k p c l r d mk]. simpl in Hc, Hl, Hr. subst c l r.
  unfold extract_minimum. rewrite bind_unfold.
  unfold get_min at 1. cbv beta iota. rewrite Hmin.
  run_stmt. rewrite ret_bind. unfold remove.
  do 7 run_stmt. rewrite decide_True by done.
  rewrite bind_unfold. unfold set_min at 1. cbv beta iota.
  rewrite bind_unfold. unfold get_num_nodes at 1. cbv beta iota.
  rewrite bind_unfold. unfold set_num_nodes at 1. cbv beta iota.
  unfold Node.set_left, Node.set_right.
  cbn [Heap.store Heap.min Heap.num_nodes upd
       Node.key Node.parent Node.child Node.left Node.right Node.degree Node.mark].
  rewrite !(list_insert_id _ m _ Hm).
  rewrite bind_unfold. erewrite rd_ok by exact Hm. reflexivity.
Qed.

(** ** The root ring of a heap that has only been inserted into *)

Lemma left_path_app h a l1 c l2 b :
  left_path h a (l1 ++ c :: l2) b ↔ left_path h a l1 c ∧ left_path h c l2 b.
Proof.
  revert a. induction l1 as [|x l1 IH]; intros a; simpl; [done|].
  rewrite IH. tauto.
Qed.

Lemma left_path_frame h h' a l b :
  (∀ x, x ∈ a :: l →
     Node.left <$> Heap.store h' !! x = Node.left <$> Heap.store h !! x) →
  left_path h a l b → left_path h' a l b.
Proof.
  revert a. induction l as [|c l IH]; intros a Hsame; simpl.
  - rewrite Hsame by constructor. done.
  - intros [Ha Hp]. split; [rewrite Hsame by constructor; done|].
    apply IH; [|done]. intros x Hx. apply Hsame. by right.
Qed.

Lemma nth_left_S h i a n :
  Heap.store h !! a = Some n → nth_left h (S i) a = nth_left h i (Node.left n).
Proof. intros H. simpl. by rewrite H. Qed.

Lemma left_path_nth h a l b i :
  left_path h a l b → i ≤ length l → nth_left h (S i) a = (l ++ [b]) !! i.
Proof.
  revert a i. induction l as [|c l IH]; intros a i Hp Hi; simpl in Hp.
  - replace i with 0 by (simpl in Hi; lia).
    destruct (Heap.store h !! a) as [n|] eqn:Hn; simpl in Hp; [|done].
    rewrite (nth_left_S _ _ _ _ Hn). simpl. congruence.
  - destruct Hp as [Ha Hp].
    destruct (Heap.store h !! a) as [n|] eqn:Hn; simpl in Ha; [|done].
    injection Ha as Ha. rewrite (nth_left_S _ _ _ _ Hn), Ha.
    destruct i as [|i]; [done|]. simpl in Hi.
    rewrite (IH _ _ Hp) by lia. done.
Qed.

Lemma siblings_returns_of_walk self h k :
  nth_left h (S k) self = Some self → ∃ res, siblings self h = Returns res h.
Proof.
  intros Hk. simpl in Hk.
  destruct (Heap.store h !! self) as [n|] eqn:Hn; [|done]. simpl in Hk.
  destruct (decide (Node.left n = self)) as [El|Hne].
  - exists [self]. unfold siblings.
    rewrite bind_unfold, (rd_ok _ _ _ _ Hn). by rewrite decide_True.
  - destruct (siblings_while_reaches h self k (Node.left n) [Node.left n] k Hk)
      as [res Hres]; [lia|].
    exists res. by eapply siblings_fuel.
Qed.

(** On a ring, [siblings] returns the ring. *)
Lemma siblings_of_cycle h m l :
  left_path h m l m → NoDup (m :: l) →
  siblings m h = Returns (l ++ [m]) h.
Proof.
  intros Hp Hnd.
  assert (Hat' : ∀ i, i ≤ length l → nth_left h (S i) m = (l ++ [m]) !! i)
    by (intros; by apply (left_path_nth h m l m)).
  assert (Hback : nth_left h (S (length l)) m = Some m).
  { rewrite Hat' by lia. by apply list_lookup_middle. }
  destruct (siblings_returns_of_walk m h _ Hback) as [res Hres].
  rewrite Hres. f_equal.
  apply siblings_Returns in Hres as (_ & k & L & Hat & Hk & Hne & _).
  pose proof (NoDup_cons_1_1 _ _ Hnd) as Hm.
  assert (Ek : k = length l).
  { destruct (Nat.lt_trichotomy k (length l)) as [Hlt|[->|Hgt]]; [|done|].
    - exfalso. rewrite Hat' in Hk by lia.
      rewrite lookup_app_l in Hk by done. apply Hm. by eapply list_elem_of_lookup_2.
    - exfalso. apply (Hne (length l) m Hgt); [|done].
      rewrite Hat by lia. exact Hback. }
  subst k. apply list_eq. intros i.
  destruct (decide (i ≤ length l)) as [Hi|Hi].
  - rewrite Hat by done. by apply Hat'.
  - rewrite !lookup_ge_None_2; [done| |]; [rewrite length_app; simpl|]; lia.
Qed.

Lemma add_Returns_left_column self node h ns u h' :
  Heap.store h !! self = Some ns →
  add self node h = Returns u h' →
  view Node.left h' = <[self := node]> (<[node := Node.left ns]> (view Node.left h)).
Proof.
  intros Hs H. unfold add in H.
  apply bind_Returns in H as (l & h0 & Hl & H).
  apply rd_Returns in Hl as (-> & n0 & Hn0 & ->).
  rewrite Hs in Hn0. injection Hn0 as <-.
  apply bind_Returns in H as ([] & h1 & H1 & H).
  destruct (modify_Returns _ _ _ _ _ H1) as (nn & Hnn & _).
  apply bind_Returns in H as ([] & h2 & H2 & H).
  apply bind_Returns in H as (l2 & h0 & Hl2 & H).
  apply rd_Returns in Hl2 as (-> & n2 & Hn2 & ->).
  apply bind_Returns in H as ([] & h3 & H3 & H).
  destruct (modify_Returns _ _ _ _ _ H) as (n3 & Hn3 & _).
  rewrite (modify_view Node.left _ _ _ _ _ _ Hn3 H). simpl.
  rewrite (modify_Returns_same Node.left _ _ _ _ _ H3 (λ _, eq_refl)).
  rewrite (modify_Returns_same Node.left _ _ _ _ _ H2 (λ _, eq_refl)).
  by rewrite (modify_view Node.left _ _ _ _ _ _ Hnn H1).
Qed.

(** The [left] links after an [insert] into a heap that is not empty. *)
Lemma insert_Returns_lefts k h m nm :
  Heap.min h = Some m →
  Heap.store h !! m = Some nm →
  Node.left nm < length (Heap.store h) →
  ∃ h', insert k h = Returns PyNone h'
        ∧ length (Heap.store h') = S (length (Heap.store h))
        ∧ Heap.min h' = (if key_lt k (Node.key nm)
                         then Some (length (Heap.store h)) else Some m)
        ∧ view Node.left h'
          = <[m := length (Heap.store h)]> (view Node.left h ++ [Node.left nm]).
Proof.
  intros Hmin Hm Hl.
  destruct (insert_Returns_nonempty k h m nm Hmin Hm Hl)
    as (h' & nm' & Hrun & L & _ & _ & _ & _ & Hmin' & _).
  exists h'. split; [exact Hrun|]. split; [exact L|]. split; [exact Hmin'|].
  clear L Hmin'. destruct h as [st mn nn]. simpl in Hmin, Hm, Hl |- *. subst mn.
  unfold insert in Hrun.
  apply bind_Returns in Hrun as (node & h1 & Ha & H). injection Ha as <- <-.
  apply bind_Returns in H as (mn & h0 & Hg & H). injection Hg as <- <-.
  simpl Heap.min in H.
  apply bind_Returns in H as ([] & h2 & Hmid & H).
  apply bind_Returns in H as (n & h0 & Hn & H). injection Hn as <- <-.
  apply bind_Returns in H as ([] & h3 & Hs & H). injection Hs as <-.
  injection H as <-. simpl.
  apply bind_Returns in Hmid as (m0 & h0 & Hm0 & Hmid).
  apply the_min_Returns in Hm0 as (-> & Hm0). simpl in Hm0.
  assert (m0 = m) by congruence. subst m0.
  apply bind_Returns in Hmid as ([] & h5 & Hadd & Hmid).
  apply bind_Returns in Hmid as (m1 & h0 & Hm1 & Hmid).
  apply the_min_Returns in Hm1 as (-> & Hm1).
  apply bind_Returns in Hmid as (mk & h0 & Hmk & Hmid).
  apply rd_Returns in Hmk as (-> & n1 & Hn1 & ->).
  assert (E2 : Heap.store h2 = Heap.store h5).
  { destruct (key_lt k (Node.key n1)); by injection Hmid as <-. }
  unfold view at 1. simpl Heap.store. rewrite E2. fold (view Node.left h5).
  erewrite add_Returns_left_column; [| |exact Hadd];
    [|simpl; by apply lookup_app_l_Some].
  f_equal. unfold view. simpl. rewrite fmap_app. simpl.
  rewrite insert_app_r_alt by (by rewrite length_fmap).
  rewrite length_fmap, Nat.sub_diag. done.
Qed.

Lemma root_ring_lookup h m l :
  root_ring h m l →
  ∃ nm, Heap.store h !! m = Some nm ∧ Node.left nm < length (Heap.store h)
        ∧ NoDup (m :: l)
        ∧ (∀ x, x ∈ m :: l → x < length (Heap.store h)).
Proof.
  intros (Hmin & Hp & Hperm).
  assert (Hin : ∀ x, x ∈ m :: l → x < length (Heap.store h)).
  { intros x Hx. rewrite Hperm in Hx. apply elem_of_seq in Hx. lia. }
  assert (Hnd : NoDup (m :: l)) by (rewrite Hperm; apply NoDup_seq).
  destruct (lookup_lt_is_Some_2 (Heap.store h) m) as [nm Hm];
    [apply Hin; constructor|].
  exists nm. split; [done|]. split; [|done].
  destruct l as [|c l]; simpl in Hp.
  - rewrite Hm in Hp. simpl in Hp. injection Hp as ->. apply Hin. constructor.
  - destruct Hp as [Hp _]. rewrite Hm in Hp. simpl in Hp. injection Hp as ->.
    apply Hin. right. constructor.
Qed.

(** [insert] puts the new node in the root ring, to the left of [min]. *)
Lemma insert_root_ring k h m l :
  root_ring h m l →
  ∃ h' m' l', insert k h = Returns PyNone h' ∧ root_ring h' m' l'
              ∧ length (Heap.store h') = S (length (Heap.store h)).
Proof.
  intros Hring.
  destruct (root_ring_lookup _ _ _ Hring) as (nm & Hm & Hl & Hnd & Hin).
  destruct Hring as (Hmin & Hp & Hperm).
  destruct (insert_Returns_lefts k h m nm Hmin Hm Hl)
    as (h' & Hrun & L & Hmin' & Hleft).
  set (new := length (Heap.store h)) in *.
  assert (Lm : m < new) by (apply Hin; constructor).
  assert (Hlk : ∀ r, Node.left <$> Heap.store h' !! r
                     = (<[m := new]> (view Node.left h ++ [Node.left nm])) !! r).
  { intros r. rewrite <- Hleft. unfold view. by rewrite list_lookup_fmap. }
  assert (Lv : length (view Node.left h) = new)
    by (unfold view; by rewrite length_fmap).
  assert (Hat_m : Node.left <$> Heap.store h' !! m = Some new).
  { rewrite Hlk. apply list_lookup_insert_eq. rewrite length_app, Lv. simpl. lia. }
  assert (Hat_new : Node.left <$> Heap.store h' !! new = Some (Node.left nm)).
  { rewrite Hlk, list_lookup_insert_ne by lia.
    rewrite <- Lv. by apply list_lookup_middle. }
  assert (Hat_old : ∀ x, x ∈ l →
            Node.left <$> Heap.store h' !! x = Node.left <$> Heap.store h !! x).
  { intros x Hx. rewrite Hlk.
    assert (x ≠ m) by (pose proof (NoDup_cons_1_1 _ _ Hnd); congruence).
    assert (x < new) by (apply Hin; by right).
    rewrite list_lookup_insert_ne by done.
    rewrite lookup_app_l by lia. unfold view. by rewrite list_lookup_fmap. }
  assert (Hp' : left_path h' new l m).
  { destruct l as [|c l]; simpl in Hp.
    - simpl. rewrite Hat_new. rewrite Hm in Hp. simpl in Hp. done.
    - destruct Hp as [Hc Hp]. simpl. split.
      + rewrite Hat_new. rewrite Hm in Hc. simpl in Hc. done.
      + eapply left_path_frame; [|exact Hp]. exact Hat_old. }
  assert (Hseq : seq 0 (length (Heap.store h')) = seq 0 new ++ [new])
    by (rewrite L; apply seq_S).
  destruct (key_lt k (Node.key nm)).
  - exists h', new, (l ++ [m]). split; [done|]. split; [|done].
    split; [done|]. split.
    + apply left_path_app. split; [exact Hp'|]. exact Hat_m.
    + rewrite Hseq, <- Hperm. rewrite (Permutation_app_comm (m :: l) [new]).
      simpl. constructor. by rewrite Permutation_app_comm.
  - exists h', m, (new :: l). split; [done|]. split; [|done].
    split; [done|]. split.
    + simpl. split; [exact Hat_m | exact Hp'].
    + rewrite Hseq, <- Hperm. rewrite (Permutation_app_comm (m :: l) [new]).
      simpl. apply perm_swap.
Qed.

Lemma run_inserts_root_ring ks h m l :
  root_ring h m l →
  ∃ h' m' l', run (Insert <$> ks) h = Returns (replicate (length ks) PyNone) h'
              ∧ root_ring h' m' l'
              ∧ length (Heap.store h') = length (Heap.store h) + length ks.
Proof.
  revert h m l. induction ks as [|k ks IH]; intros h m l Hring.
  - exists h, m, l. simpl. split; [done|]. split; [done|]. lia.
  - destruct (insert_root_ring k h m l Hring) as (h1 & m1 & l1 & Hins & Hring1 & L1).
    destruct (IH _ _ _ Hring1) as (h2 & m2 & l2 & Hrun & Hring2 & L2).
    exists h2, m2, l2. split; [|split; [exact Hring2|]].
    + rewrite fmap_cons, run_cons.
      change (perform (Insert k) h) with (insert k h).
      rewrite Hins, Hrun. reflexivity.
    + rewrite L2, L1. simpl. lia.
Qed.

(** ** Counting marks *)

#[global] Instance unmarks_preorder : PreOrder unmarks.
Proof.
  split; [intros h; unfold unmarks; lia|].
  intros h1 h2 h3. unfold unmarks. lia.
Qed.

Lemma unmarks_same h h' : same Node.mark h h' → unmarks h h'.
Proof. unfold unmarks, marked, same. by intros ->. Qed.

Lemma unmarks_store h h' : Heap.store h' = Heap.store h → unmarks h h'.
Proof. unfold unmarks, marked, view. by intros ->. Qed.

Lemma count_true_insert (l : list bool) (i : nat) (b : bool) :
  length (filter (λ b, b = true) (<[i := b]> l))
  ≤ length (filter (λ b, b = true) l) + (if b then 1 else 0).
Proof.
  revert i. induction l as [|x l IH]; intros i; [simpl; lia|].
  destruct i as [|i]; simpl.
  - destruct b, x;
      rewrite ?filter_cons_True by done; rewrite ?filter_cons_False by done;
      simpl; lia.
  - specialize (IH i). destruct x;
      rewrite ?filter_cons_True by done; rewrite ?filter_cons_False by done;
      simpl; lia.
Qed.

Lemma unmarks_upd_unmark r n h :
  unmarks h (upd r (Node.set_mark false n) h).
Proof.
  unfold unmarks, marked. rewrite view_upd.
  change (Node.mark (Node.set_mark false n)) with false.
  pose proof (count_true_insert (view Node.mark h) r false) as Hc.
  cbv iota in Hc. lia.
Qed.

Ltac unmarks_step :=
  first [ apply unmarks_same, same_upd; [by intros [] | done]
        | apply unmarks_upd_unmark
        | apply respects_set_min, unmarks_store
        | apply respects_set_num_nodes, unmarks_store ].

Lemma add_unmarks self node : respects unmarks (add self node).
Proof. unfold add. respects_walk; unmarks_step. Qed.

Lemma remove_unmarks self : respects unmarks (remove self).
Proof. unfold remove. respects_walk; unmarks_step. Qed.

Lemma link_unmarks node1 node2 : respects unmarks (link node1 node2).
Proof.
  unfold link. respects_walk;
    first [apply add_unmarks | apply remove_unmarks | unmarks_step].
Qed.

Lemma cut_unmarks node parent : respects unmarks (cut node parent).
Proof.
  unfold cut. respects_walk;
    first [apply add_unmarks | apply remove_unmarks | unmarks_step].
Qed.

Lemma promote_children_unmarks rnodes : respects unmarks (promote_children rnodes).
Proof.
  induction rnodes as [|r rnodes IH]; simpl; respects_walk;
    first [apply add_unmarks | apply IH | unmarks_step].
Qed.

Lemma consolidate_while_unmarks fuel deg_list xnode node_deg :
  respects unmarks (consolidate_while fuel deg_list xnode node_deg).
Proof.
  revert deg_list xnode node_deg.
  induction fuel as [|fuel IH]; intros deg_list xnode node_deg; simpl;
    respects_walk; first [apply link_unmarks | apply IH].
Qed.

Lemma consolidate_roots_unmarks nodes deg_list :
  respects unmarks (consolidate_roots nodes deg_list).
Proof.
  revert deg_list. induction nodes as [|node nodes IH]; intros deg_list; simpl;
    respects_walk; first [apply consolidate_while_unmarks | apply IH].
Qed.

Lemma consolidate_rebuild_unmarks deg_list :
  respects unmarks (consolidate_rebuild deg_list).
Proof.
  induction deg_list as [|d deg_list IH]; simpl; respects_walk;
    first [apply add_unmarks | apply IH | unmarks_step].
Qed.

Lemma consolidate_unmarks : respects unmarks consolidate.
Proof.
  unfold consolidate. respects_walk;
    first [apply consolidate_roots_unmarks | apply consolidate_rebuild_unmarks].
Qed.

Lemma extract_minimum_unmarks : respects unmarks extract_minimum.
Proof.
  unfold extract_minimum. respects_walk;
    first [ apply promote_children_unmarks | apply remove_unmarks
          | apply consolidate_unmarks | unmarks_step ].
Qed.

Lemma alloc_unmarks k : respects unmarks (alloc k).
Proof.
  intros h. unfold unmarks, marked, view. simpl.
  rewrite fmap_app, list.filter_app. simpl.
  rewrite filter_cons_False by done. rewrite length_app. simpl. lia.
Qed.

Lemma insert_unmarks k : respects unmarks (insert k).
Proof.
  unfold insert. respects_walk;
    first [apply alloc_unmarks | apply add_unmarks | unmarks_step].
Qed.

Lemma minimum_unmarks : respects unmarks minimum.
Proof. unfold minimum. respects_walk. Qed.

Lemma respects_adds_marks {A} (m : M A) d : respects unmarks m → adds_marks d m.
Proof. intros Hm h. specialize (Hm h). unfold unmarks in Hm. lia. Qed.

Lemma adds_marks_bind {A B} d1 d2 (m : M A) (f : A → M B) :
  adds_marks d1 m → (∀ a, adds_marks d2 (f a)) → adds_marks (d1 + d2) (m ≫= f).
Proof.
  intros Hm Hf h. rewrite final_bind. specialize (Hm h).
  destruct (m h) as [a h1|e h1]; simpl in Hm.
  - specialize (Hf a h1). lia.
  - lia.
Qed.

(** [__cascading_cut] marks at most one node: the one at which it stops. *)
Lemma cascading_cut_rec_marks fuel node : adds_marks 1 (cascading_cut_rec fuel node).
Proof.
  revert node. induction fuel as [|fuel IH]; intros node; simpl.
  - apply (adds_marks_bind 0 1); [apply respects_adds_marks, respects_rd; apply _|].
    intros [parent|]; [|apply respects_adds_marks, respects_ret; apply _].
    apply (adds_marks_bind 0 1); [apply respects_adds_marks, respects_rd; apply _|].
    intros [|]; simpl.
    + apply respects_adds_marks, respects_raise; apply _.
    + intros h. unfold modify. destruct (Heap.store h !! node) as [n|]; simpl; [|lia].
      unfold marked. fold (upd node (Node.set_mark true n) h).
      rewrite view_upd.
      change (Node.mark (Node.set_mark true n)) with true.
      pose proof (count_true_insert (view Node.mark h) node true) as Hc.
      cbv iota in Hc. exact Hc.
  - apply (adds_marks_bind 0 1); [apply respects_adds_marks, respects_rd; apply _|].
    intros [parent|]; [|apply respects_adds_marks, respects_ret; apply _].
    apply (adds_marks_bind 0 1); [apply respects_adds_marks, respects_rd; apply _|].
    intros [|]; simpl.
    + apply (adds_marks_bind 0 1); [apply respects_adds_marks, cut_unmarks|].
      intros _. apply IH.
    + intros h. unfold modify. destruct (Heap.store h !! node) as [n|]; simpl; [|lia].
      unfold marked. fold (upd node (Node.set_mark true n) h).
      rewrite view_upd.
      change (Node.mark (Node.set_mark true n)) with true.
      pose proof (count_true_insert (view Node.mark h) node true) as Hc.
      cbv iota in Hc. exact Hc.
Qed.

Lemma cascading_cut_marks node : adds_marks 1 (cascading_cut node).
Proof.
  unfold cascading_cut.
  apply (adds_marks_bind 0 1);
    [apply respects_adds_marks, respects_count_objects; apply _|].
  intros n. apply cascading_cut_rec_marks.
Qed.

Lemma decrease_key_marks node k : adds_marks 1 (decrease_key node k).
Proof.
  unfold decrease_key.
  apply (adds_marks_bind 0 1); [apply respects_adds_marks, respects_rd; apply _|].
  intros k0. destruct (key_gt k k0);
    [apply respects_adds_marks, respects_ret; apply _|].
  apply (adds_marks_bind 0 1).
  { apply respects_adds_marks, respects_modify; [apply _|]. intros. unmarks_step. }
  intros _.
  apply (adds_marks_bind 0 1); [apply respects_adds_marks, respects_rd; apply _|].
  intros parent. apply (adds_marks_bind 1 0).
  - destruct parent as [parent|];
      [|apply respects_adds_marks, respects_ret; apply _].
    apply (adds_marks_bind 0 1); [apply respects_adds_marks, respects_rd; apply _|].
    intros kn.
    apply (adds_marks_bind 0 1); [apply respects_adds_marks, respects_rd; apply _|].
    intros kp. destruct (key_lt kn kp);
      [|apply respects_adds_marks, respects_ret; apply _].
    apply (adds_marks_bind 0 1); [apply respects_adds_marks, cut_unmarks|].
    intros _. apply cascading_cut_marks.
  - intros _. apply respects_adds_marks. respects_walk; unmarks_step.
Qed.

(** ** [min] across [__consolidate] *)

Lemma key_lt_trans a b c : key_lt a b = true → key_lt b c = true → key_lt a c = true.
Proof.
  destruct a, b, c; simpl; try done.
  rewrite !Z.ltb_lt. lia.
Qed.

Lemma link_same_attrs node1 node2 : respects same_attrs (link node1 node2).
Proof.
  unfold link. respects_walk;
    first [ apply add_same_attrs | apply remove_same_attrs | apply same_attrs_upd ].
Qed.

Lemma consolidate_while_same_attrs fuel deg_list xnode node_deg :
  respects same_attrs (consolidate_while fuel deg_list xnode node_deg).
Proof.
  revert deg_list xnode node_deg.
  induction fuel as [|fuel IH]; intros deg_list xnode node_deg; simpl;
    respects_walk; first [apply link_same_attrs | apply IH].
Qed.

Lemma consolidate_roots_same_attrs nodes deg_list :
  respects same_attrs (consolidate_roots nodes deg_list).
Proof.
  revert deg_list. induction nodes as [|node nodes IH]; intros deg_list; simpl;
    respects_walk; first [apply consolidate_while_same_attrs | apply IH].
Qed.

(** The second loop of [__consolidate], started with [min] a node, keeps
    [min] a node, and never moves it to a larger key. *)
Lemma consolidate_rebuild_min K deg_list h u h' :
  (∃ m nm, Heap.min h = Some m ∧ Heap.store h !! m = Some nm
           ∧ key_lt K (Node.key nm) = false) →
  consolidate_rebuild deg_list h = Returns u h' →
  ∃ m nm, Heap.min h' = Some m ∧ Heap.store h' !! m = Some nm
          ∧ key_lt K (Node.key nm) = false.
Proof.
  destruct u.
  revert h. induction deg_list as [|d deg_list IH]; intros h HP H; simpl in H.
  - by injection H as <-.
  - apply bind_Returns in H as ([] & h1 & Hstep & H).
    eapply IH; [|exact H]. clear H IH.
    destruct d as [dn|]; [|by injection Hstep as <-].
    destruct HP as (m & nm & Hmin & Hm & HK).
    apply bind_Returns in Hstep as (mn & h0 & Hg & H). injection Hg as <- <-.
    rewrite Hmin in H.
    apply bind_Returns in H as (m0 & h0 & Hm0 & H).
    apply the_min_Returns in Hm0 as (-> & Hm0).
    assert (m0 = m) by congruence. subst m0.
    apply bind_Returns in H as ([] & h2 & Hadd & H).
    destruct (respects_Returns _ _ _ _ _ (add_same_attrs m dn) Hadd) as [Hmin2 _].
    pose proof (respects_Returns _ _ _ _ _ (add_same Node.key m dn off_ring_key) Hadd)
      as Hk2.
    apply bind_Returns in H as (kd & h0 & Hkd & H).
    apply rd_Returns in Hkd as (-> & nd & Hnd & ->).
    apply bind_Returns in H as (m1 & h0 & Hm1 & H).
    apply the_min_Returns in Hm1 as (-> & Hm1).
    assert (m1 = m) by congruence. subst m1.
    apply bind_Returns in H as (mk & h0 & Hmk & H).
    apply rd_Returns in Hmk as (-> & nm2 & Hnm2 & ->).
    assert (Km : Node.key nm2 = Node.key nm).
    { pose proof (same_lookup Node.key h h2 m Hk2) as Hx.
      rewrite Hm, Hnm2 in Hx. simpl in Hx. congruence. }
    destruct (key_lt (Node.key nd) (Node.key nm2)) eqn:E.
    + injection H as <-. exists dn, nd. simpl. split; [done|]. split; [done|].
      destruct (key_lt K (Node.key nd)) eqn:E2; [|done].
      rewrite Km in E. rewrite (key_lt_trans _ _ _ E2 E) in HK. done.
    + injection H as <-. exists m, nm2. split; [congruence|]. split; [done|].
      by rewrite Km.
Qed.

Lemma consolidate_Returns_min h u h' :
  consolidate h = Returns u h' →
  ∃ m nm m' nm',
    Heap.min h = Some m ∧ Heap.store h !! m = Some nm
    ∧ Heap.min h' = Some m' ∧ Heap.store h' !! m' = Some nm'
    ∧ key_lt (Node.key nm) (Node.key nm') = false.
Proof.
  intros H. unfold consolidate in H.
  apply bind_Returns in H as (n & h0 & Hn & H). injection Hn as <- <-.
  apply bind_Returns in H as (size & h0 & Hsz & H).
  assert (h0 = h) as ->.
  { unfold int_2log in Hsz. destruct (_ <=? _)%Z; [discriminate|].
    by injection Hsz as _ <-. }
  apply bind_Returns in H as (m & h0 & Hm & H).
  apply the_min_Returns in Hm as (-> & Hmin).
  apply bind_Returns in H as (nodes & h0 & Hsib & H).
  assert (h0 = h) as ->.
  { symmetry. exact (respects_Returns eq _ _ _ _ (respects_siblings eq m) Hsib). }
  assert (∃ nm, Heap.store h !! m = Some nm) as [nm Hm].
  { unfold siblings in Hsib. apply bind_Returns in Hsib as (l & h0 & Hl & _).
    apply rd_Returns in Hl as (_ & nm & Hm & _). eauto. }
  apply bind_Returns in H as (dl & h1 & Hroots & H).
  destruct (respects_Returns _ _ _ _ _ (consolidate_roots_same_attrs _ _) Hroots)
    as [Hmin1 _].
  pose proof (respects_Returns _ _ _ _ _ (consolidate_roots_same_key _ _) Hroots)
    as Hk1.
  destruct (same_view_lookup Node.key h h1 m nm Hk1 Hm) as (nm1 & Hnm1 & Kn).
  destruct (consolidate_rebuild_min (Node.key nm) dl h1 u h') as (m' & nm' & ? & ? & ?);
    [|exact H|].
  - exists m, nm1. split; [congruence|]. split; [done|].
    rewrite Kn. apply key_lt_irrefl.
  - exists m, nm, m', nm'. done.
Qed.

(** * Node count over a run *)

Lemma run_Returns_tally cs h0 vs h :
  run cs h0 = Returns vs h →
  Heap.num_nodes h = (Heap.num_nodes h0 + size_after cs vs)%Z
  ∧ length (Heap.store h) = count_inserts cs + length (Heap.store h0).
Proof.
  revert h0 vs. induction cs as [|c cs IH]; intros h0 vs H; simpl in H.
  - injection H as <- <-. simpl. split; lia.
  - apply bind_Returns in H as (v & h1 & Hc & H).
    apply bind_Returns in H as (vs' & h2 & Hrun & H).
    injection H as <- <-.
    apply perform_Returns_tally in Hc as [L N].
    apply IH in Hrun as [N' L']. simpl. split; lia.
Qed.

(** X1.  After any sequence of public calls on a new heap, each of
    which returns, [num_nodes] (what [len] reports) is the number of
    inserts, minus the number of [extract_minimum] calls that handed
    back a key, minus the number of [delete] calls; and the store holds
    exactly one node per insert. *)
Theorem X1_len_counts_inserts_minus_removals
    (cs : list call) (vs : list value) (h : Heap.t) :
  run cs Heap.init = Returns vs h →
  Heap.num_nodes h = size_after cs vs
  ∧ len h = Returns (size_after cs vs) h
  ∧ length (Heap.store h) = count_inserts cs.
Proof.
  intros H. apply run_Returns_tally in H as [N L]. simpl in N, L.
  split; [done|]. split; [|lia].
  unfold len, get_num_nodes. by rewrite N.
Qed.

Lemma X1_len_counts_inserts_minus_removals_witness :
  len (final (run (inserts [4;4;4]%Z ++ [Delete 1; ExtractMinimum]) Heap.init))
  = Returns 1%Z
      (final (run (inserts [4;4;4]%Z ++ [Delete 1; ExtractMinimum]) Heap.init)).
Proof.
  assert (H : run (inserts [4;4;4]%Z ++ [Delete 1; ExtractMinimum]) Heap.init
              = Returns (replicate 4 PyNone ++ [PyKey (Int 4)])
                  (final (run (inserts [4;4;4]%Z ++ [Delete 1; ExtractMinimum])
                              Heap.init))).
  { apply Returns_eta. vm_compute. reflexivity. }
  exact (proj1 (proj2 (X1_len_counts_inserts_minus_removals _ _ _ H))).
Defined.

(** * What [extract_minimum] hands back *)

(** X2.  On a heap whose [min] is a node of the store, [extract_minimum],
    when it returns, hands back the key that [min] held at the call, the
    key [minimum] reports; it takes exactly one off [num_nodes], creates
    and drops no node object, and changes no key. *)
Theorem X2_extract_minimum_hands_back_the_min_key
    (h h' : Heap.t) (m : ref) (nm : Node.t) (v : value) :
  Heap.min h = Some m →
  Heap.store h !! m = Some nm →
  extract_minimum h = Returns v h' →
  v = PyKey (Node.key nm)
  ∧ minimum h = Returns v h
  ∧ Heap.num_nodes h' = (Heap.num_nodes h - 1)%Z
  ∧ view Node.key h' = view Node.key h.
Proof.
  intros Hmin Hm H.
  destruct (extract_minimum_Returns_keys _ _ _ _ _ Hmin Hm H) as [-> Hk].
  split; [done|]. split.
  { unfold minimum. rewrite bind_unfold, (the_min_ok m) by done.
    rewrite bind_unfold, (rd_ok _ _ _ _ Hm). reflexivity. }
  split; [|done].
  apply extract_minimum_Returns_tally in H as [(Hn & _)|(k & _ & _ & _ & N)];
    [congruence | done].
Qed.

Lemma X2_extract_minimum_hands_back_the_min_key_witness :
  let h := final (run (inserts [5;3;8]%Z) Heap.init) in
  minimum h = Returns (PyKey (Int 3)) h
  ∧ Heap.num_nodes (final (extract_minimum h)) = 2%Z.
Proof.
  intros h.
  assert (H : extract_minimum h = Returns (PyKey (Int 3)) (final (extract_minimum h))).
  { apply Returns_eta. vm_compute. reflexivity. }
  destruct (X2_extract_minimum_hands_back_the_min_key
              h _ 1%nat (Node.mk (Int 3) None None 2 0 0 false) _
              eq_refl eq_refl H) as (_ & Hmin & Hnum & _).
  split; [exact Hmin | exact Hnum].
Defined.

(** * A heap that has only been inserted into *)

(** X3.  Insert any keys [k0, k1, ...] into a new heap.  Every [insert]
    returns None; afterwards [minimum] returns a smallest of the keys
    inserted (the running minimum as [insert] compares them, which is an
    inserted key that no inserted key is below), and [len] returns their
    number. *)
Theorem X3_minimum_after_inserts_is_smallest (k0 : Key) (ks : list Key) :
  ∃ h,
    run (Insert <$> (k0 :: ks)) Heap.init
    = Returns (replicate (S (length ks)) PyNone) h
    ∧ minimum h = Returns (PyKey (least k0 ks)) h
    ∧ len h = Returns (Z.of_nat (S (length ks))) h
    ∧ least k0 ks ∈ k0 :: ks
    ∧ ∀ k, k ∈ k0 :: ks → key_lt k (least k0 ks) = false.
Proof.
  assert (H0 : min_is (Heap.mk [Node.init 0 k0] (Some 0) 1) 0 k0).
  { eexists. split; [done|]. split; [done|]. split; [done|]. simpl. lia. }
  destruct (run_inserts_min_is ks _ _ _ H0)
    as (h & m & Hrun & (nm & Hmin & Hm & Hk & _) & Hnum).
  exists h. split; [|split; [|split; [|apply least_spec]]].
  - rewrite fmap_cons, run_cons.
    change (perform (Insert k0) Heap.init)
      with (Returns PyNone (Heap.mk [Node.init 0 k0] (Some 0) 1)).
    cbv beta iota. rewrite Hrun. reflexivity.
  - unfold minimum. rewrite bind_unfold, (the_min_ok m) by done.
    rewrite bind_unfold, (rd_ok _ _ _ _ Hm), Hk. reflexivity.
  - unfold len, get_num_nodes. rewrite Hnum. simpl Heap.num_nodes.
    do 2 f_equal. lia.
Qed.

(** * [Node.siblings] *)

(** X4.  When [siblings] returns, it has not changed the heap, and the
    list it returns holds the nodes met by following [left] from [self]:
    first [self.left], then that node's [left], and so on up to [self],
    which is the last entry.  No node is listed twice. *)
Theorem X4_siblings_lists_the_ring_once
    (self : ref) (h h' : Heap.t) (res : list ref) :
  siblings self h = Returns res h' →
  h' = h
  ∧ (∀ i, i < length res → res !! i = nth_left h (S i) self)
  ∧ res !! (length res - 1) = Some self
  ∧ NoDup res.
Proof.
  intros H. apply siblings_Returns in H as (-> & k & L & Hat & Hk & _ & Hnd).
  split; [done|]. split; [|split; [|done]].
  - intros i Hi. apply Hat. lia.
  - rewrite L. replace (S k - 1) with k by lia. rewrite Hat by lia. exact Hk.
Qed.

Lemma X4_siblings_lists_the_ring_once_witness :
  let h := final (run (inserts [5;3;8]%Z) Heap.init) in
  siblings 1 h = Returns [2; 0; 1] h ∧ NoDup [2; 0; 1].
Proof.
  intros h.
  assert (H : siblings 1 h = Returns [2; 0; 1] h) by (vm_compute; reflexivity).
  split; [exact H|].
  exact (proj2 (proj2 (proj2 (X4_siblings_lists_the_ring_once 1 h h _ H)))).
Defined.

(** X5.  [siblings] returns exactly when following [left] from [self]
    leads back to [self]; the walk is then over within as many rounds as
    the heap has nodes. *)
Theorem X5_siblings_returns_iff_the_ring_closes (self : ref) (h : Heap.t) :
  (∃ res h', siblings self h = Returns res h')
  ↔ (∃ k, nth_left h (S k) self = Some self).
Proof.
  split.
  - intros (res & h' & H).
    apply siblings_Returns in H as (_ & k & _ & _ & Hk & _). by exists k.
  - intros (k & Hk). simpl in Hk.
    destruct (Heap.store h !! self) as [n|] eqn:Hn; [|done]. simpl in Hk.
    destruct (decide (Node.left n = self)) as [El|Hne].
    + exists [self], h. unfold siblings.
      rewrite bind_unfold, (rd_ok _ _ _ _ Hn). by rewrite decide_True.
    + destruct (siblings_while_reaches h self k (Node.left n) [Node.left n] k Hk)
        as [res Hres]; [lia|].
      exists res, h. by eapply siblings_fuel.
Qed.

(** * Rings of nodes *)

(** X6.  Splicing a node into a ring with [add] and taking it out again
    with [remove] puts the ring back: in a ring whose links agree at
    [self] (the [right] of [self.left] is [self]), [self.add(node)]
    followed by [node.remove()] changes nothing but [node]'s own [left]
    and [right], which keep pointing into the ring. *)
Theorem X6_add_then_remove_restores_the_ring
    (self node : ref) (h : Heap.t) (ns nn nl : Node.t) :
  Heap.store h !! self = Some ns →
  Heap.store h !! node = Some nn →
  Heap.store h !! Node.left ns = Some nl →
  Node.right nl = self →
  node ≠ self → node ≠ Node.left ns →
  (add self node;; remove node) h
  = Returns tt (upd node (Node.set_right self (Node.set_left (Node.left ns) nn)) h).
Proof.
  intros Hs Hn Hl Hr Hns Hnl. unfold add, remove.
  assert (Ls : self < length (Heap.store h)) by (by eapply lookup_lt_Some).
  assert (Ln : node < length (Heap.store h)) by (by eapply lookup_lt_Some).
  assert (Ll : Node.left ns < length (Heap.store h)) by (by eapply lookup_lt_Some).
  destruct ns as [ks ps cs l rs ds ms], nl as [kl pl cl ll rl dl ml].
  simpl in *. subst rl.
  destruct (decide (l = self)) as [->|Hne].
  - rewrite Hs in Hl. injection Hl as <- <- <- <- <- <- <-.
    repeat run_stmt. f_equal. store_eq.
  - repeat run_stmt. f_equal. store_eq.
Qed.

Lemma X6_add_then_remove_restores_the_ring_witness :
  let h := Heap.mk [Node.init 0 (Int 1); Node.init 1 (Int 2)] (Some 0) 2 in
  (add 0 1;; remove 1) h
  = Returns tt (Heap.mk [Node.init 0 (Int 1); Node.mk (Int 2) None None 0 0 0 false]
                        (Some 0) 2).
Proof.
  intros h.
  exact (X6_add_then_remove_restores_the_ring
           0 1 h (Node.init 0 (Int 1)) (Node.init 1 (Int 2)) (Node.init 0 (Int 1))
           eq_refl eq_refl eq_refl eq_refl ltac:(lia) ltac:(simpl; lia)).
Defined.

(** * [decrease_key] and [delete] *)

(** X7.  A [decrease_key(node, k)] with [k] not above the node's key
    that returns, returns None, has set the node's key to [k] and left
    every other key as it was, has kept [num_nodes], and leaves a heap
    whose [minimum] is the smaller of [k] and the minimum before. *)
Theorem X7_decrease_key_sets_the_key_and_the_minimum
    (node m : ref) (k : Key) (h h' : Heap.t) (nm nn : Node.t) (v : value) :
  Heap.min h = Some m →
  Heap.store h !! m = Some nm →
  Heap.store h !! node = Some nn →
  key_gt k (Node.key nn) = false →
  decrease_key node k h = Returns v h' →
  v = PyNone
  ∧ view Node.key h' = <[node := k]> (view Node.key h)
  ∧ Heap.num_nodes h' = Heap.num_nodes h
  ∧ minimum h'
    = Returns (PyKey (if key_lt k (Node.key nm) then k else Node.key nm)) h'.
Proof.
  intros Hmin Hm Hn Hgt H.
  destruct (decrease_key_Returns _ _ _ _ _ _ Hn Hgt H)
    as (-> & Hkeys & Hnum & m0 & nm0 & Hmin0 & Hm0 & Hmin').
  assert (m0 = m) by congruence. subst m0.
  assert (nm0 = nm) by congruence. subst nm0.
  split; [done|]. split; [done|]. split; [done|].
  assert (Ln : node < length (view Node.key h)).
  { unfold view. rewrite length_fmap. by eapply lookup_lt_Some. }
  unfold minimum. rewrite bind_unfold, (the_min_ok _ _ Hmin'). cbv beta iota.
  rewrite bind_unfold.
  destruct (key_lt k (Node.key nm)) eqn:E.
  - erewrite view_lookup_rd; [reflexivity|].
    rewrite Hkeys. by apply list_lookup_insert_eq.
  - erewrite view_lookup_rd; [reflexivity|]. rewrite Hkeys.
    destruct (decide (node = m)) as [->|Hne].
    + rewrite list_lookup_insert_eq by done. f_equal.
      apply key_antisym; [exact E|]. unfold key_gt in Hgt. congruence.
    + rewrite list_lookup_insert_ne by done.
      unfold view. by rewrite list_lookup_fmap, Hm.
Qed.

Lemma X7_decrease_key_sets_the_key_and_the_minimum_witness :
  let h := final (run (inserts [5;3;8]%Z) Heap.init) in
  let h' := final (decrease_key 2 (Int 1) h) in
  view Node.key h' = [Int 5; Int 3; Int 1]
  ∧ minimum h' = Returns (PyKey (Int 1)) h'.
Proof.
  intros h h'.
  assert (H : decrease_key 2 (Int 1) h = Returns PyNone h').
  { refine (Returns_eta (decrease_key 2 (Int 1) h) PyNone _).
    vm_compute. reflexivity. }
  destruct (X7_decrease_key_sets_the_key_and_the_minimum
              2 1 (Int 1) h h'
              (Node.mk (Int 3) None None 2 0 0 false)
              (Node.mk (Int 8) None None 0 1 0 false) PyNone
              eq_refl eq_refl eq_refl eq_refl H) as (_ & Hkeys & _ & Hmin).
  split; [exact Hkeys | exact Hmin].
Defined.

(** X8.  A [delete(node)] that returns, returns None, has lowered
    [num_nodes] by one, has overwritten the node's key with minus
    infinity, and has left every other key as it was. *)
Theorem X8_delete_overwrites_the_key_with_minus_infinity
    (node : ref) (h h' : Heap.t) (nn : Node.t) (v : value) :
  Heap.store h !! node = Some nn →
  delete node h = Returns v h' →
  v = PyNone
  ∧ Heap.num_nodes h' = (Heap.num_nodes h - 1)%Z
  ∧ view Node.key h' = <[node := NegInf]> (view Node.key h).
Proof.
  intros Hn H.
  destruct (delete_Returns_tally _ _ _ _ H) as [_ Hnum].
  unfold delete in H.
  apply bind_Returns in H as (v1 & h1 & Hdk & H).
  apply bind_Returns in H as (v2 & h2 & Hex & H). injection H as <- <-.
  split; [done|]. split; [done|].
  destruct (decrease_key_Returns _ _ _ _ _ _ Hn (key_gt_NegInf _) Hdk)
    as (_ & Hkeys & _).
  rewrite <- Hkeys.
  exact (respects_Returns (same Node.key) _ _ _ _ extract_minimum_same_key Hex).
Qed.

Lemma X8_delete_overwrites_the_key_with_minus_infinity_witness :
  let h := final (run (inserts [5;3;8]%Z) Heap.init) in
  let h' := final (delete 2 h) in
  Heap.num_nodes h' = 2%Z ∧ view Node.key h' = [Int 5; Int 3; NegInf].
Proof.
  intros h h'.
  assert (H : delete 2 h = Returns PyNone h').
  { refine (Returns_eta (delete 2 h) PyNone _). vm_compute. reflexivity. }
  destruct (X8_delete_overwrites_the_key_with_minus_infinity
              2 h h' (Node.mk (Int 8) None None 0 1 0 false) PyNone eq_refl H)
    as (_ & Hnum & Hkeys).
  split; [rewrite Hnum | rewrite Hkeys]; vm_compute; reflexivity.
Defined.

(** * Calls on an empty heap, heap order when a call raises, termination *)

(** X9.  On a heap whose [min] is None (a new heap, or one whose last
    root has been extracted): [minimum] raises AttributeError and
    changes nothing; [insert] makes the new node [min], so that
    [minimum] then returns the key just inserted; [decrease_key] on a
    node without a parent, with a key not above the node's, raises
    AttributeError after it has overwritten the key, and so does
    [delete]. *)
Theorem X9_calls_on_an_empty_heap (h : Heap.t) :
  Heap.min h = None →
  minimum h = Raises AttributeError h
  ∧ (∀ k, ∃ h', insert k h = Returns PyNone h'
                ∧ Heap.store h' = Heap.store h ++ [Node.init (length (Heap.store h)) k]
                ∧ Heap.min h' = Some (length (Heap.store h))
                ∧ Heap.num_nodes h' = (Heap.num_nodes h + 1)%Z
                ∧ minimum h' = Returns (PyKey k) h')
  ∧ (∀ node nn k,
       Heap.store h !! node = Some nn → Node.parent nn = None →
       key_gt k (Node.key nn) = false →
       decrease_key node k h
       = Raises AttributeError (upd node (Node.set_key k nn) h))
  ∧ (∀ node nn,
       Heap.store h !! node = Some nn → Node.parent nn = None →
       delete node h
       = Raises AttributeError (upd node (Node.set_key NegInf nn) h)).
Proof.
  intros Hmin.
  assert (Hdk : ∀ node nn k,
       Heap.store h !! node = Some nn → Node.parent nn = None →
       key_gt k (Node.key nn) = false →
       decrease_key node k h
       = Raises AttributeError (upd node (Node.set_key k nn) h)).
  { intros node nn k Hn Hp Hgt. unfold decrease_key.
    rewrite bind_unfold, (rd_ok _ _ _ _ Hn), Hgt.
    rewrite bind_unfold, (modify_ok _ _ _ _ Hn).
    set (h1 := upd node (Node.set_key k nn) h).
    assert (H1 : Heap.store h1 !! node = Some (Node.set_key k nn))
      by (by eapply lookup_upd_same_node).
    rewrite bind_unfold, (rd_ok _ _ _ _ H1). simpl Node.parent. rewrite Hp.
    rewrite bind_unfold. unfold mret at 1, M_ret at 1.
    rewrite bind_unfold, (rd_ok _ _ _ _ H1).
    rewrite bind_unfold. unfold the_min, get_min. rewrite bind_unfold.
    change (Heap.min h1) with (Heap.min h). rewrite Hmin. reflexivity. }
  split; [|split; [|split]].
  - unfold minimum, the_min, get_min. rewrite !bind_unfold, Hmin. reflexivity.
  - intros k. destruct h as [st mn nn]. simpl in Hmin. subst mn.
    eexists. split; [reflexivity|]. simpl.
    split; [done|]. split; [done|]. split; [done|].
    unfold minimum. rewrite bind_unfold, (the_min_ok (length st)) by done.
    cbv beta iota. rewrite bind_unfold.
    rewrite (rd_ok _ _ _ (Node.init (length st) k));
      [reflexivity | simpl; by apply list_lookup_middle].
  - exact Hdk.
  - intros node nn Hn Hp. unfold delete.
    rewrite bind_unfold, (Hdk node nn NegInf Hn Hp (key_gt_NegInf _)). reflexivity.
Qed.

Lemma X9_calls_on_an_empty_heap_witness :
  minimum Heap.init = Raises AttributeError Heap.init
  ∧ ∃ h', insert (Int 7) Heap.init = Returns PyNone h'
          ∧ minimum h' = Returns (PyKey (Int 7)) h'.
Proof.
  destruct (X9_calls_on_an_empty_heap Heap.init eq_refl) as (Hmin & Hins & _).
  split; [exact Hmin|].
  destruct (Hins (Int 7)) as (h' & H1 & _ & _ & _ & H2).
  exists h'. split; [exact H1 | exact H2].
Defined.

(** X10.  [insert], [minimum] and [extract_minimum] keep heap order
    also when they raise: started in a heap in which no node has a key
    below its parent's, each of them ends, whether it returns or raises
    (an IndexError out of [__consolidate], say), in such a heap. *)
Theorem X10_heap_order_survives_a_raising_call (h : Heap.t) :
  heap_ordered h →
  (∀ k, heap_ordered (final (insert k h)))
  ∧ heap_ordered (final (minimum h))
  ∧ heap_ordered (final (extract_minimum h)).
Proof.
  intros Ho. split; [|split].
  - intros k. by apply insert_ordered.
  - by apply minimum_ordered.
  - by apply extract_minimum_ordered.
Qed.

Lemma X10_heap_order_survives_a_raising_call_witness :
  let h := Heap.mk [Node.mk (Int 1) None (Some 1) 0 0 1 false;
                    Node.mk (Int 2) (Some 0) None 1 1 0 false] (Some 0) 2 in
  heap_ordered h ∧ heap_ordered (final (extract_minimum h)).
Proof.
  intros h.
  assert (Ho : heap_ordered h).
  { intros r n p _ Hr Hp. destruct r as [|[|r]]; simpl in Hr.
    - injection Hr as <-. simpl in Hp. discriminate.
    - injection Hr as <-. simpl in Hp. injection Hp as <-.
      eexists. split; [reflexivity|]. reflexivity.
    - discriminate. }
  split; [exact Ho|].
  exact (proj2 (proj2 (X10_heap_order_survives_a_raising_call h Ho))).
Defined.


(** X11.  [decrease_key] always ends, on any heap and for any node and
    key: the chain of calls of [__cascading_cut] stops, since each call
    that goes on has cut, and so unmarked, a marked node. *)
Theorem X11_decrease_key_always_ends (node : ref) (k : Key) (h : Heap.t) :
  raised (decrease_key node k h) ≠ Some Hangs.
Proof.
  revert h. change (never_hangs (decrease_key node k)).
  unfold decrease_key. never_hangs_walk;
    first [ apply cut_never_hangs | apply cascading_cut_never_hangs
          | (intros h0; simpl; discriminate) ].
Qed.

(** X12.  The first loop of [__consolidate], with its inner [while]
    loop, always ends, whatever the list of roots and the table: each
    round of the [while] loop raises the degree it looks up, until the
    slot is free or the index is past the table (an IndexError). *)
Theorem X12_consolidate_loops_always_end
    (nodes : list ref) (deg_list : list (option ref)) (h : Heap.t) :
  raised (consolidate_roots nodes deg_list h) ≠ Some Hangs.
Proof. apply consolidate_roots_never_hangs. Qed.

(** * [__cut] and [__link] *)

(** X13.  What a [__cut(node, parent)] that returns has written: the
    node has no parent and no mark, and is the left neighbour of [min]
    in the root ring; the degree of [parent] is one less; no other
    parent link, mark or degree has changed.  The [child] link of
    [parent] is cleared only if the node's [right] was the node itself;
    otherwise every [child] link is left as it was, also a [child] link
    of [parent] that leads to the node that was cut. *)
Theorem X13_cut_leaves_the_child_link_of_the_parent
    (node parent m : ref) (h h' : Heap.t) (nn np : Node.t) (u : unit) :
  Heap.store h !! node = Some nn →
  Heap.store h !! parent = Some np →
  Heap.min h = Some m →
  cut node parent h = Returns u h' →
  view Node.parent h' = <[node := None]> (view Node.parent h)
  ∧ view Node.mark h' = <[node := false]> (view Node.mark h)
  ∧ view Node.degree h' = <[parent := (Node.degree np - 1)%Z]> (view Node.degree h)
  ∧ view Node.child h'
    = (if decide (Node.right nn = node)
       then <[parent := None]> (view Node.child h) else view Node.child h)
  ∧ view Node.key h' = view Node.key h
  ∧ Node.left <$> Heap.store h' !! m = Some node.
Proof.
  intros Hn Hp Hmin H.
  destruct (cut_Returns_columns _ _ _ _ _ _ _ Hn Hp H) as (P & Mk & D & C).
  split; [exact P|]. split; [exact Mk|]. split; [exact D|]. split; [exact C|].
  split.
  - exact (respects_Returns _ _ _ _ _ (cut_same_key node parent) H).
  - by eapply cut_Returns_left_of_min.
Qed.

Lemma X13_cut_leaves_the_child_link_of_the_parent_witness :
  let h := final (run (inserts [1;2;3;4;5]%Z ++ [ExtractMinimum]) Heap.init) in
  let h' := final (cut 2 1 h) in
  view Node.child h = [None; Some 2; None; Some 4; None]
  ∧ view Node.child h' = [None; Some 2; None; Some 4; None]
  ∧ view Node.parent h' = [None; None; None; Some 1; Some 3].
Proof.
  intros h h'.
  assert (H : cut 2 1 h = Returns tt h').
  { refine (Returns_eta (cut 2 1 h) tt _). vm_compute. reflexivity. }
  assert (Hn : Heap.store h !! 2 = Some (Node.mk (Int 3) (Some 1) None 3 3 0 false))
    by (vm_compute; reflexivity).
  assert (Hp : Heap.store h !! 1 = Some (Node.mk (Int 2) None (Some 2) 1 1 2 false))
    by (vm_compute; reflexivity).
  assert (Hmin : Heap.min h = Some 1) by (vm_compute; reflexivity).
  destruct (X13_cut_leaves_the_child_link_of_the_parent
              2 1 1 h h' _ _ tt Hn Hp Hmin H) as (P & _ & _ & C & _).
  split; [vm_compute; reflexivity|]. split.
  - rewrite C. vm_compute. reflexivity.
  - rewrite P. vm_compute. reflexivity.
Defined.

(** X14.  What a [__link(node1, node2)] that returns has written:
    [node1] has [node2] as its parent and no mark; the degree of [node2]
    is one more; no other parent link, mark or degree, and no key, has
    changed.  The [child] link of [node2] is set, to [node1], only if it
    was None; otherwise every [child] link is as it was. *)
Theorem X14_link_puts_node1_under_node2
    (node1 node2 : ref) (h h' : Heap.t) (n2 : Node.t) (u : unit) :
  Heap.store h !! node2 = Some n2 →
  link node1 node2 h = Returns u h' →
  view Node.parent h' = <[node1 := Some node2]> (view Node.parent h)
  ∧ view Node.mark h' = <[node1 := false]> (view Node.mark h)
  ∧ view Node.degree h' = <[node2 := (Node.degree n2 + 1)%Z]> (view Node.degree h)
  ∧ view Node.child h'
    = (if Node.child n2 is None
       then <[node2 := Some node1]> (view Node.child h) else view Node.child h)
  ∧ view Node.key h' = view Node.key h.
Proof.
  intros Hp H.
  destruct (link_Returns_columns _ _ _ _ _ _ Hp H) as (P & Mk & D & C).
  split; [exact P|]. split; [exact Mk|]. split; [exact D|]. split; [exact C|].
  exact (respects_Returns _ _ _ _ _ (link_same_key node1 node2) H).
Qed.

Lemma X14_link_puts_node1_under_node2_witness :
  let h := final (run (inserts [5;3;8]%Z) Heap.init) in
  let h' := final (link 0 1 h) in
  view Node.parent h' = [Some 1; None; None]
  ∧ view Node.child h' = [None; Some 0; None]
  ∧ view Node.degree h' = [0; 1; 0]%Z.
Proof.
  intros h h'.
  assert (H : link 0 1 h = Returns tt h').
  { refine (Returns_eta (link 0 1 h) tt _). vm_compute. reflexivity. }
  assert (Hp : Heap.store h !! 1 = Some (Node.mk (Int 3) None None 2 0 0 false))
    by (vm_compute; reflexivity).
  destruct (X14_link_puts_node1_under_node2 0 1 h h' _ tt Hp H)
    as (P & _ & D & C & _).
  split; [rewrite P; vm_compute; reflexivity|].
  split; [rewrite C | rewrite D]; vm_compute; reflexivity.
Defined.

(** * Extracting the only node *)

(** X15.  When [min] is the only node of its ring ([left] and [right]
    lead to itself) and has no child, [extract_minimum] returns its key
    and leaves [min] None and [num_nodes] one less; the store is as it
    was: the node that was taken out keeps its key and its links. *)
Theorem X15_extract_minimum_of_the_only_root
    (h : Heap.t) (m : ref) (nm : Node.t) :
  Heap.min h = Some m →
  Heap.store h !! m = Some nm →
  Node.child nm = None → Node.left nm = m → Node.right nm = m →
  extract_minimum h
  = Returns (PyKey (Node.key nm))
      (Heap.mk (Heap.store h) None (Heap.num_nodes h - 1)).
Proof. apply extract_minimum_only_root. Qed.

Lemma X15_extract_minimum_of_the_only_root_witness :
  let h := final (insert (Int 7) Heap.init) in
  extract_minimum h = Returns (PyKey (Int 7)) (Heap.mk (Heap.store h) None 0).
Proof.
  intros h.
  exact (X15_extract_minimum_of_the_only_root
           h 0 (Node.init 0 (Int 7)) eq_refl eq_refl eq_refl eq_refl eq_refl).
Defined.

(** X16.  On a heap whose [min] is None, [insert(k)] followed by
    [extract_minimum] hands [k] back and leaves the heap empty again,
    with [num_nodes] as before; the store has one more node, the one
    that was inserted and taken out. *)
Theorem X16_insert_then_extract_minimum_on_an_empty_heap (k : Key) (h : Heap.t) :
  Heap.min h = None →
  ∃ h', run [Insert k; ExtractMinimum] h = Returns [PyNone; PyKey k] h'
        ∧ Heap.store h' = Heap.store h ++ [Node.init (length (Heap.store h)) k]
        ∧ Heap.min h' = None
        ∧ Heap.num_nodes h' = Heap.num_nodes h.
Proof.
  intros Hmin. destruct h as [st mn nn]. simpl in Hmin. subst mn.
  set (new := length st).
  set (h1 := Heap.mk (st ++ [Node.init new k]) (Some new) (nn + 1)).
  assert (Hx : Heap.store h1 !! new = Some (Node.init new k))
    by (by apply list_lookup_middle).
  pose proof (extract_minimum_only_root h1 new _ eq_refl Hx eq_refl eq_refl eq_refl)
    as Hex.
  eexists. split.
  - rewrite run_cons.
    change (perform (Insert k) (Heap.mk st None nn)) with (Returns PyNone h1).
    cbv beta iota. rewrite run_cons.
    change (perform ExtractMinimum h1) with (extract_minimum h1).
    rewrite Hex. reflexivity.
  - simpl. split; [done|]. split; [done|]. lia.
Qed.

Lemma X16_insert_then_extract_minimum_on_an_empty_heap_witness :
  ∃ h', run [Insert (Int 7); ExtractMinimum] Heap.init
        = Returns [PyNone; PyKey (Int 7)] h'
        ∧ Heap.min h' = None.
Proof.
  destruct (X16_insert_then_extract_minimum_on_an_empty_heap (Int 7) Heap.init eq_refl)
    as (h' & Hrun & _ & Hmin & _).
  exists h'. split; [exact Hrun | exact Hmin].
Defined.

(** * The root ring after inserting *)

(** X17.  Insert any keys [k0, k1, ...] into a new heap.  Afterwards the
    ring of [min] is the whole heap: [min.siblings()] returns, and the
    list it returns holds every node that was inserted, each once. *)
Theorem X17_root_ring_after_inserts_holds_every_node (k0 : Key) (ks : list Key) :
  ∃ h m res,
    run (Insert <$> (k0 :: ks)) Heap.init
    = Returns (replicate (S (length ks)) PyNone) h
    ∧ Heap.min h = Some m
    ∧ siblings m h = Returns res h
    ∧ res ≡ₚ seq 0 (S (length ks))
    ∧ length (Heap.store h) = S (length ks).
Proof.
  assert (H0 : root_ring (Heap.mk [Node.init 0 k0] (Some 0) 1) 0 [])
    by (split; [done|]; split; done).
  destruct (run_inserts_root_ring ks _ _ _ H0)
    as (h & m & l & Hrun & Hring & L).
  destruct (root_ring_lookup _ _ _ Hring) as (_ & _ & _ & Hnd & _).
  destruct Hring as (Hmin & Hp & Hperm).
  exists h, m, (l ++ [m]). split; [|split; [done|split; [|split]]].
  - rewrite fmap_cons, run_cons.
    change (perform (Insert k0) Heap.init)
      with (Returns PyNone (Heap.mk [Node.init 0 k0] (Some 0) 1)).
    cbv beta iota. rewrite Hrun. reflexivity.
  - by apply siblings_of_cycle.
  - rewrite <- Permutation_cons_append, Hperm, L. done.
  - exact L.
Qed.

(** * Marks *)

(** X18.  No public call other than [decrease_key] and [delete] adds a
    marked node, and these two add at most one: whether the call returns
    or raises, the number of marked nodes afterwards is at most the
    number before, plus one for [decrease_key] and [delete] (the node at
    which [__cascading_cut] stops). *)
Theorem X18_a_call_marks_at_most_one_node (c : call) (h : Heap.t) :
  marked (final (perform c h))
  ≤ marked h + (match c with DecreaseKey _ _ | Delete _ => 1 | _ => 0 end).
Proof.
  revert h. change (adds_marks
    (match c with DecreaseKey _ _ | Delete _ => 1 | _ => 0 end) (perform c)).
  destruct c as [k| | |node new_key|node|]; simpl.
  - apply respects_adds_marks, insert_unmarks.
  - apply respects_adds_marks, minimum_unmarks.
  - apply respects_adds_marks, extract_minimum_unmarks.
  - apply decrease_key_marks.
  - unfold delete. apply (adds_marks_bind 1 0); [apply decrease_key_marks|].
    intros _. apply respects_adds_marks. respects_walk.
    apply extract_minimum_unmarks.
  - apply respects_adds_marks. unfold len. respects_walk.
Qed.

(** * [min] across [__consolidate] *)

(** X19.  [__consolidate] never clears [min] and never starts a new
    root list: whenever it returns, [min] was a node on entry and is a
    node on exit, holding a key not above the key that [min] held on
    entry.  (Its second loop is entered with [min] still set, so the
    branch for [min] being None is not taken, and every table entry is
    added to the ring of the [min] it finds.) *)
Theorem X19_consolidate_never_clears_min (h h' : Heap.t) (u : unit) :
  consolidate h = Returns u h' →
  ∃ m nm m' nm',
    Heap.min h = Some m ∧ Heap.store h !! m = Some nm
    ∧ Heap.min h' = Some m' ∧ Heap.store h' !! m' = Some nm'
    ∧ key_lt (Node.key nm) (Node.key nm') = false.
Proof. apply consolidate_Returns_min. Qed.

Lemma X19_consolidate_never_clears_min_witness :
  let h := final (run (inserts [5;3;8]%Z) Heap.init) in
  ∃ m', Heap.min (final (consolidate h)) = Some m'.
Proof.
  intros h.
  assert (H : consolidate h = Returns tt (final (consolidate h))).
  { refine (Returns_eta (consolidate h) tt _). vm_compute. reflexivity. }
  destruct (X19_consolidate_never_clears_min h _ tt H)
    as (_ & _ & m' & _ & _ & _ & Hmin' & _).
  exists m'. exact Hmin'.
Defined.
